(** * The expression calculator of main.go

    A shallow embedding of the evaluator of [main.go]: the operator table,
    the infix-to-postfix conversion [convertToPostfix], the postfix
    evaluator [calculate] and the entry point [Calc], together with the
    parts of Go's [strings], [unicode/utf8] and [strconv] packages that
    [Calc] calls.

    Conventions.
    - A Go [string] is a sequence of bytes: [string] of the Standard Library.
    - A [float64] is a primitive binary64 float; [+ - * /] and [==] are the
      IEEE 754 operations of [PrimFloat].
    - An [error] result is [option error]: [None] is Go's [nil].
    - The two slices used as stacks ([stack] in [convertToPostfix] and in
      [calculate]) are lists whose head is the top of the stack, that is
      the element [stack[len(stack)-1]]; [append(stack, x)] is [x :: stack]
      and [stack[:len(stack)-1]] is the tail.  The slices [output], [infix],
      [postfix] and [tokens] are lists in index order. *)

From Stdlib Require Import PrimFloat Ascii.
From stdpp Require Import gmap strings list.
From Equations Require Import Equations.

(** ** Strings as byte sequences *)

(** [s[:n]] for [n <= len(s)]. *)
Fixpoint string_take (n : nat) (s : string) : string :=
  match n, s with
  | S n', String c rest => String c (string_take n' rest)
  | _, _ => ""
  end.

(** [s[n:]] for [n <= len(s)]. *)
Fixpoint string_drop (n : nat) (s : string) : string :=
  match n, s with
  | S n', String _ rest => string_drop n' rest
  | _, _ => s
  end.

Lemma string_drop_length n s :
  (String.length (string_drop n s) ≤ String.length s)%nat.
Proof.
  revert s. induction n as [|n IH]; intros [|c s]; simpl; try lia.
  specialize (IH s). lia.
Qed.

(** [b.WriteString] of every element in turn. *)
Fixpoint string_concat (l : list string) : string :=
  match l with
  | [] => ""
  | s :: rest => s +:+ string_concat rest
  end.

(** The bytes of [s] that satisfy [keep]. *)
Fixpoint string_filter (keep : ascii → bool) (s : string) : string :=
  match s with
  | "" => ""
  | String c rest =>
      if keep c then String c (string_filter keep rest)
      else string_filter keep rest
  end.

(** ** unicode/utf8 *)

Module utf8.

Definition byte_val (c : ascii) : Z := Z.of_N (N_of_ascii c).

(** The table [first] together with [acceptRanges]: for a leading byte of
    a multi-byte sequence, the length of the sequence and the range
    accepted for its second byte; [None] for the entries [as] (ASCII) and
    [xx] (a byte that cannot start a sequence). *)
Definition first (c : Z) : option (nat * (Z * Z)) :=
  if (c <? 0xC2)%Z then None
  else if (c <? 0xE0)%Z then Some (2, (0x80, 0xBF)%Z)
  else if (c =? 0xE0)%Z then Some (3, (0xA0, 0xBF)%Z)
  else if (c <? 0xED)%Z then Some (3, (0x80, 0xBF)%Z)
  else if (c =? 0xED)%Z then Some (3, (0x80, 0x9F)%Z)
  else if (c <? 0xF0)%Z then Some (3, (0x80, 0xBF)%Z)
  else if (c =? 0xF0)%Z then Some (4, (0x90, 0xBF)%Z)
  else if (c <? 0xF4)%Z then Some (4, (0x80, 0xBF)%Z)
  else if (c =? 0xF4)%Z then Some (4, (0x80, 0x8F)%Z)
  else None.

(** [c < lo || hi < c] *)
Definition outside (lo hi : Z) (c : ascii) : bool :=
  (byte_val c <? lo)%Z || (hi <? byte_val c)%Z.

(** The second result of [utf8.DecodeRuneInString(s)]: the width in bytes
    of the first UTF-8 sequence of [s]; 0 for the empty string and 1 for
    a byte that does not start a well-formed sequence. *)
Definition DecodeRuneInString (s : string) : nat :=
  match s with
  | "" => 0
  | String s0 t0 =>
      match first (byte_val s0) with
      | None => 1
      | Some (sz, (lo, hi)) =>
          if (String.length s <? sz)%nat then 1
          else
            match t0 with
            | "" => 1
            | String s1 t1 =>
                if outside lo hi s1 then 1
                else if (sz <=? 2)%nat then 2
                else
                  match t1 with
                  | "" => 1
                  | String s2 t2 =>
                      if outside 0x80 0xBF s2 then 1
                      else if (sz <=? 3)%nat then 3
                      else
                        match t2 with
                        | "" => 1
                        | String s3 _ =>
                            if outside 0x80 0xBF s3 then 1 else 4
                        end
                  end
            end
      end
  end.

End utf8.

(** ** strings *)

Module strings.

(** [strings.HasPrefix(s, prefix)] *)
Definition HasPrefix (s prefix : string) : bool := String.prefix prefix s.

(** [explode(s, -1)]: one string per UTF-8 sequence of [s], bytes that do
    not belong to a well-formed sequence being sliced individually. *)
Equations? explode (s : string) : list string by wf (String.length s) lt :=
  explode "" := [];
  explode (String c rest) :=
    string_take (utf8.DecodeRuneInString (String c rest)) (String c rest)
    :: explode (string_drop (utf8.DecodeRuneInString (String c rest) - 1) rest).
Proof.
  all: eapply Nat.le_lt_trans; [apply string_drop_length | simpl; lia].
Qed.

(** The scan of [strings.Replace(s, old, new, -1)] for a non-empty [old]:
    every non-overlapping occurrence of [old], leftmost first, is replaced
    by [new].  [skip] counts the bytes of the occurrence just replaced
    that are still ahead. *)
Fixpoint replace_from (old new : string) (skip : nat) (s : string) : string :=
  match s with
  | "" => ""
  | String c rest =>
      match skip with
      | S k => replace_from old new k rest
      | O =>
          if HasPrefix s old
          then new +:+ replace_from old new (String.length old - 1) rest
          else String c (replace_from old new 0 rest)
      end
  end.

(** [strings.ReplaceAll(s, old, new)].  An empty [old] matches at the
    beginning of the string and after each UTF-8 sequence. *)
Definition ReplaceAll (s old new : string) : string :=
  if String.eqb old new then s
  else if String.eqb old "" then
    new +:+ string_concat ((λ r, r +:+ new) <$> explode s)
  else replace_from old new 0 s.

(** The scan of [strings.Split(s, sep)] for a non-empty [sep]: [cur] is the
    piece collected since the last separator. *)
Fixpoint split_from (sep : string) (skip : nat) (cur s : string) : list string :=
  match s with
  | "" => [cur]
  | String c rest =>
      match skip with
      | S k => split_from sep k cur rest
      | O =>
          if HasPrefix s sep
          then cur :: split_from sep (String.length sep - 1) "" rest
          else split_from sep 0 (cur +:+ String c "") rest
      end
  end.

(** [strings.Split(s, sep)]; with an empty separator it is [explode(s, -1)]. *)
Definition Split (s sep : string) : list string :=
  if String.eqb sep "" then explode s else split_from sep 0 "" s.

End strings.

(** ** strconv *)

Module strconv.

(** [strconv.ParseFloat(token, 64)] on the tokens that [Calc] passes to
    it.  Every such token is one element of [strings.Split(_, "")], a
    single UTF-8 sequence, and a string of that shape is accepted exactly
    when it is one ASCII decimal digit: a floating-point literal needs a
    digit, and [inf], [infinity] and [nan] have three bytes or more.
    [Some value] stands for [err == nil]. *)
Definition ParseFloat (token : string) : option float :=
  match token with
  | "0" => Some 0%float
  | "1" => Some 1%float
  | "2" => Some 2%float
  | "3" => Some 3%float
  | "4" => Some 4%float
  | "5" => Some 5%float
  | "6" => Some 6%float
  | "7" => Some 7%float
  | "8" => Some 8%float
  | "9" => Some 9%float
  | _ => None
  end.

End strconv.

(** ** main.go *)

(** The sentinel errors declared at the top of [main.go]. *)
Inductive error : Set :=
  | ErrInvalidExpression
  | ErrDivisionByZero
  | ErrExpressionSyntax
  | ErrNotPostMethod
  | ErrInternalServerError.

(** The operators and their priorities. *)
Definition operations : gmap string Z :=
  <["+" := 1%Z]> (<["-" := 1%Z]> (<["*" := 2%Z]> (<["/" := 2%Z]> ∅))).

(** [_, ok := operations[s]; return ok] *)
Definition isOperator (s : string) : bool :=
  match operations !! s with
  | Some _ => true
  | None => false
  end.

(** [prio, _ := operations[op]; return prio]: the zero value for a key that
    is not in the table. *)
Definition precedence (op : string) : Z :=
  match operations !! op with
  | Some prio => prio
  | None => 0%Z
  end.

(** The loop of the [")"] branch of [convertToPostfix]:
    [for len(stack) > 0 && stack[len(stack)-1] != "("]. *)
Fixpoint pop_to_paren (stack output : list string) : list string * list string :=
  match stack with
  | top :: stack' =>
      if negb (String.eqb top "(") then pop_to_paren stack' (output ++ [top])
      else (stack, output)
  | [] => (stack, output)
  end.

(** The loop of the operator branch of [convertToPostfix]:
    [for len(stack) > 0 && stack[len(stack)-1] != "(" &&
         precedence(token) <= precedence(stack[len(stack)-1])]. *)
Fixpoint pop_operators (token : string) (stack output : list string)
  : list string * list string :=
  match stack with
  | top :: stack' =>
      if negb (String.eqb top "(") && (precedence token <=? precedence top)%Z
      then pop_operators token stack' (output ++ [top])
      else (stack, output)
  | [] => (stack, output)
  end.

(** The body of the loop over [infix]: the operator stack and the output
    after [token], or the error that [convertToPostfix] returns at it. *)
Definition convert_token (stack output : list string) (token : string)
  : list string * list string + error :=
  if String.eqb token "(" then inl (token :: stack, output)
  else if String.eqb token ")" then
    match pop_to_paren stack output with
    | ([], _) => inr ErrExpressionSyntax
    | (top :: stack', output') =>
        if negb (String.eqb top "(") then inr ErrExpressionSyntax
        else inl (stack', output')
    end
  else if isOperator token then
    let '(stack', output') := pop_operators token stack output in
    inl (token :: stack', output')
  else inl (stack, output ++ [token]).

(** [for _, token := range infix] *)
Fixpoint convert_tokens (stack output infix : list string)
  : list string * list string + error :=
  match infix with
  | [] => inl (stack, output)
  | token :: infix' =>
      match convert_token stack output token with
      | inl (stack', output') => convert_tokens stack' output' infix'
      | inr err => inr err
      end
  end.

(** The final loop of [convertToPostfix], [for len(stack) > 0]; on normal
    exit it yields the operator stack it leaves behind and the output. *)
Fixpoint convert_flush (stack output : list string)
  : list string * list string + error :=
  match stack with
  | top :: stack' =>
      if String.eqb top "(" then inr ErrExpressionSyntax
      else convert_flush stack' (output ++ [top])
  | [] => inl (stack, output)
  end.

(** The two loops of [convertToPostfix] in sequence, from the empty stack
    and the empty output. *)
Definition convert_run (infix : list string) : list string * list string + error :=
  match convert_tokens [] [] infix with
  | inl (stack, output) => convert_flush stack output
  | inr err => inr err
  end.

(** [func convertToPostfix(infix []string) ([]string, error)] *)
Definition convertToPostfix (infix : list string) : list string * option error :=
  match convert_run infix with
  | inl (_, output) => (output, None)
  | inr err => ([], Some err)
  end.

Section Evaluator.

(** [strconv.ParseFloat(token, 64)], with [Some value] for [err == nil]
    and [None] for every error.  The evaluator is kept independent of the
    grammar of floating-point literals; [strconv.ParseFloat] above is the
    instance that [Calc] exercises. *)
Variable ParseFloat : string → option float.

(** The body of the loop over [postfix]: the value stack after [token],
    or the pair that [calculate] returns at it. *)
Definition calculate_token (stack : list float) (token : string)
  : list float + float * option error :=
  if isOperator token then
    match stack with
    | b :: a :: stack' =>
        if String.eqb token "+" then inl ((a + b)%float :: stack')
        else if String.eqb token "-" then inl ((a - b)%float :: stack')
        else if String.eqb token "*" then inl ((a * b)%float :: stack')
        else if String.eqb token "/" then
          if (b =? 0)%float then inr (0%float, Some ErrDivisionByZero)
          else inl ((a / b)%float :: stack')
        else inr (0%float, Some ErrExpressionSyntax)
    | _ => inr (0%float, Some ErrExpressionSyntax)
    end
  else
    match ParseFloat token with
    | None => inr (0%float, Some ErrExpressionSyntax)
    | Some value => inl (value :: stack)
    end.

(** [for _, token := range postfix] *)
Fixpoint calculate_tokens (stack : list float) (postfix : list string)
  : list float + float * option error :=
  match postfix with
  | [] => inl stack
  | token :: postfix' =>
      match calculate_token stack token with
      | inl stack' => calculate_tokens stack' postfix'
      | inr ret => inr ret
      end
  end.

(** [func calculate(postfix []string) (float64, error)] *)
Definition calculate (postfix : list string) : float * option error :=
  match calculate_tokens [] postfix with
  | inl [value] => (value, None)
  | inl _ => (0%float, Some ErrInvalidExpression)
  | inr ret => ret
  end.

(** [tokens := strings.Split(strings.ReplaceAll(expression, " ", ""), "")] *)
Definition Calc_tokens (expression : string) : list string :=
  strings.Split (strings.ReplaceAll expression " " "") "".

(** [func Calc(expression string) (float64, error)] *)
Definition Calc (expression : string) : float * option error :=
  if (String.length expression <? 3)%nat then (0%float, Some ErrExpressionSyntax)
  else
    let tokens := Calc_tokens expression in
    match convertToPostfix tokens with
    | (_, Some err) => (0%float, Some err)
    | (postfix, None) =>
        match calculate postfix with
        | (_, Some err) => (0%float, Some err)
        | (result, None) => (result, None)
        end
    end.

End Evaluator.

(** ** Notions used to state the properties *)

(** The ASCII white space of [unicode.IsSpace]: tab, line feed, vertical
    tab, form feed, carriage return and space. *)
Definition is_whitespace (c : ascii) : bool :=
  let n := N_of_ascii c in ((9 <=? n)%N && (n <=? 13)%N) || (n =? 32)%N.

(** The space character, the only one that [Calc] replaces. *)
Definition is_space (c : ascii) : bool := Ascii.eqb c " ".

(** [s] without its leading white space. *)
Fixpoint trim_left (s : string) : string :=
  match s with
  | String c rest => if is_whitespace c then trim_left rest else s
  | "" => ""
  end.

(** [s] without its trailing white space. *)
Fixpoint trim_right (s : string) : string :=
  match s with
  | String c rest =>
      match trim_right rest with
      | "" => if is_whitespace c then "" else String c ""
      | rest' => String c rest'
      end
  | "" => ""
  end.

(** The expression with its surrounding white space trimmed, as the
    specification words the length check. *)
Definition TrimSpace (s : string) : string := trim_right (trim_left s).

(** The expression with all white space removed, as the specification
    words the tokenization. *)
Definition strip_whitespace (s : string) : string :=
  string_filter (λ c, negb (is_whitespace c)) s.

(** The expression with its space characters removed. *)
Definition strip_spaces (s : string) : string :=
  string_filter (λ c, negb (is_space c)) s.

(** A token that is one UTF-8 sequence, or one byte outside any
    well-formed sequence. *)
Definition single_rune (token : string) : Prop :=
  token ≠ "" ∧ utf8.DecodeRuneInString token = String.length token.

(** The number of ["("] that a scan of [tokens] from nesting depth [depth]
    leaves open; [None] when some [")"] has no ["("] to close. *)
Fixpoint paren_depth (depth : nat) (tokens : list string) : option nat :=
  match tokens with
  | [] => Some depth
  | token :: tokens' =>
      if String.eqb token "(" then paren_depth (S depth) tokens'
      else if String.eqb token ")" then
        match depth with
        | O => None
        | S depth' => paren_depth depth' tokens'
        end
      else paren_depth depth tokens'
  end.

(** Every parenthesis of [tokens] has its partner. *)
Definition parens_matched (tokens : list string) : bool :=
  match paren_depth 0 tokens with
  | Some O => true
  | _ => false
  end.

(** The number of ["("] on an operator stack. *)
Fixpoint open_parens (stack : list string) : nat :=
  match stack with
  | [] => 0
  | top :: stack' =>
      if String.eqb top "(" then S (open_parens stack') else open_parens stack'
  end.

(** The errors that the evaluator can return. *)
Definition evaluator_error (err : option error) : Prop :=
  err = None ∨ err = Some ErrExpressionSyntax ∨
  err = Some ErrDivisionByZero ∨ err = Some ErrInvalidExpression.

(** ** Expression trees *)

(** A token that [convertToPostfix] sends straight to the output: neither a
    parenthesis nor an operator. *)
Definition is_operand (token : string) : bool :=
  negb (String.eqb token "(") && negb (String.eqb token ")") &&
  negb (isOperator token).

(** A token other than the two parentheses. *)
Definition not_paren (token : string) : bool :=
  negb (String.eqb token "(") && negb (String.eqb token ")").

(** An arithmetic expression: an operand, the application of a binary
    operator, or an expression in parentheses. *)
Inductive expr : Type :=
  | Operand (token : string)
  | Binary (op : string) (lhs rhs : expr)
  | Paren (inner : expr).

(** The leaves are operands and the nodes carry operators of the table. *)
Fixpoint well_formed (e : expr) : bool :=
  match e with
  | Operand token => is_operand token
  | Binary op lhs rhs =>
      isOperator op && well_formed lhs && well_formed rhs
  | Paren inner => well_formed inner
  end.

(** The tokens of [e] written in infix notation where an operator of
    priority [level] or more is expected: a left operand is written at the
    priority of its operator, a right operand one above it (operators of
    one priority group to the left), and an application of lower priority
    than expected is put in parentheses. *)
Fixpoint infix_of (level : Z) (e : expr) : list string :=
  match e with
  | Operand token => [token]
  | Binary op lhs rhs =>
      let body :=
        infix_of (precedence op) lhs ++
        op :: infix_of (precedence op + 1) rhs in
      if (precedence op <? level)%Z then "(" :: body ++ [")"] else body
  | Paren inner => "(" :: infix_of 0 inner ++ [")"]
  end.

(** The tokens of [e] in postfix notation. *)
Fixpoint postfix_of (e : expr) : list string :=
  match e with
  | Operand token => [token]
  | Binary op lhs rhs => postfix_of lhs ++ postfix_of rhs ++ [op]
  | Paren inner => postfix_of inner
  end.

(** The top of the operator stack does not yield to an operator of
    priority [level] or more: the stack is empty, or its top is ["("] or an
    entry of lower priority. *)
Definition stack_below (level : Z) (stack : list string) : Prop :=
  match stack with
  | [] => True
  | top :: _ => top = "(" ∨ (precedence top < level)%Z
  end.

(** An operator stack as [convertToPostfix] builds it: every entry is
    ["("] or an operator. *)
Definition holds_operators (stack : list string) : Prop :=
  Forall (λ token, token = "(" ∨ isOperator token = true) stack.

(** An ASCII byte. *)
Definition is_ascii (c : ascii) : bool := (N_of_ascii c <? 128)%N.

(** An ASCII decimal digit. *)
Definition is_digit (c : ascii) : bool :=
  (48 <=? N_of_ascii c)%N && (N_of_ascii c <=? 57)%N.

(** Every operand of [e] is one decimal digit. *)
Fixpoint digit_operands (e : expr) : bool :=
  match e with
  | Operand (String c "") => is_digit c
  | Operand _ => false
  | Binary _ lhs rhs => digit_operands lhs && digit_operands rhs
  | Paren inner => digit_operands inner
  end.

(** The bytes of [s] all satisfy [p]. *)
Fixpoint string_forall (p : ascii → bool) (s : string) : bool :=
  match s with
  | "" => true
  | String c rest => p c && string_forall p rest
  end.

(** The one-byte strings of the bytes of [s], in order. *)
Definition bytes_of (s : string) : list string :=
  (λ c, String c "") <$> String.list_ascii_of_string s.

Section Meaning.

Variable ParseFloat : string → option float.

(** The arithmetic of one operator on the operands [a] and [b]. *)
Definition apply_operator (op : string) (a b : float) : float + error :=
  if String.eqb op "+" then inl (a + b)%float
  else if String.eqb op "-" then inl (a - b)%float
  else if String.eqb op "*" then inl (a * b)%float
  else if String.eqb op "/" then
    if (b =? 0)%float then inr ErrDivisionByZero else inl (a / b)%float
  else inr ErrExpressionSyntax.

(** The value of an expression, its operands read by [ParseFloat] and its
    subexpressions taken from left to right; the first failure is the
    result. *)
Fixpoint eval (e : expr) : float + error :=
  match e with
  | Operand token =>
      match ParseFloat token with
      | Some value => inl value
      | None => inr ErrExpressionSyntax
      end
  | Binary op lhs rhs =>
      match eval lhs with
      | inr err => inr err
      | inl a =>
          match eval rhs with
          | inr err => inr err
          | inl b => apply_operator op a b
          end
      end
  | Paren inner => eval inner
  end.

(** The pair that a function of [main.go] returns for a value or an error. *)
Definition returned (outcome : float + error) : float * option error :=
  match outcome with
  | inl value => (value, None)
  | inr err => (0%float, Some err)
  end.

End Meaning.

(** ** The program as it runs

    The functions of [main.go] once more, this time with what the
    definitions above leave implicit: the package-level variables are kept
    in a store that every function receives and hands on, the slices are
    lists in index order whose accesses panic when they are out of range,
    and a [for] loop with a condition runs on fuel, one unit for each
    evaluation of the condition, and is unfinished when the fuel ends. *)

(** The package-level variables that [Calc] and the functions it calls
    can see. *)
Record globals : Type := Globals {
  var_ErrInvalidExpression : error;
  var_ErrDivisionByZero : error;
  var_ErrExpressionSyntax : error;
  var_ErrNotPostMethod : error;
  var_ErrInternalServerError : error;
  var_operations : gmap string Z
}.

(** Their values when the program starts. *)
Definition initial_globals : globals :=
  {| var_ErrInvalidExpression := ErrInvalidExpression;
     var_ErrDivisionByZero := ErrDivisionByZero;
     var_ErrExpressionSyntax := ErrExpressionSyntax;
     var_ErrNotPostMethod := ErrNotPostMethod;
     var_ErrInternalServerError := ErrInternalServerError;
     var_operations := operations |}.

(** How a call ends. *)
Inductive outcome (A : Type) : Type :=
  | Returns (result : A)
  | Panics
  | Unfinished.
Arguments Returns {A} result.
Arguments Panics {A}.
Arguments Unfinished {A}.

(** A computation over the package-level variables. *)
Definition run (A : Type) : Type := globals → outcome (A * globals).

#[global] Instance run_ret : MRet run :=
  λ A (a : A) (g : globals), Returns (a, g).

#[global] Instance run_bind : MBind run :=
  λ A B (k : A → run B) (m : run A) (g : globals),
    match m g with
    | Returns (a, g') => k a g'
    | Panics => Panics
    | Unfinished => Unfinished
    end.

(** The value of a package-level variable. *)
Definition read {A : Type} (variable : globals → A) : run A :=
  λ g, Returns (variable g, g).

(** A run-time panic. *)
Definition panic {A : Type} : run A := λ _, Panics.

(** A loop that has used up its fuel. *)
Definition unfinished {A : Type} : run A := λ _, Unfinished.

(** [len(s)] *)
Definition len {A : Type} (s : list A) : Z := Z.of_nat (length s).

(** [s[i]]: a panic unless [0 <= i < len(s)]. *)
Definition index {A : Type} (s : list A) (i : Z) : run A :=
  if (i <? 0)%Z || (len s <=? i)%Z then panic
  else
    match s !! Z.to_nat i with
    | Some x => mret x
    | None => panic
    end.

(** [s[:high]]: a panic unless [0 <= high <= len(s)] (Go allows [high] up
    to the capacity; the stricter bound panics more often). *)
Definition slice_to {A : Type} (s : list A) (high : Z) : run (list A) :=
  if (high <? 0)%Z || (len s <? high)%Z then panic
  else mret (take (Z.to_nat high) s).

Module Run.

(** [func isOperator(s string) bool] *)
Definition isOperator (s : string) : run bool :=
  table ← read var_operations;
  mret (match table !! s with Some _ => true | None => false end).

(** [func precedence(op string) int] *)
Definition precedence (op : string) : run Z :=
  table ← read var_operations;
  mret (match table !! op with Some prio => prio | None => 0%Z end).

(** [for len(stack) > 0 && stack[len(stack)-1] != "("], lines 64 to 67. *)
Fixpoint pop_to_paren (fuel : nat) (stack output : list string)
  : run (list string * list string) :=
  match fuel with
  | O => unfinished
  | S fuel' =>
      again ←
        (if (0 <? len stack)%Z then
           top ← index stack (len stack - 1);
           mret (negb (String.eqb top "("))
         else mret false);
      if again : bool then
        top ← index stack (len stack - 1);
        stack' ← slice_to stack (len stack - 1);
        pop_to_paren fuel' stack' (output ++ [top])
      else mret (stack, output)
  end.

(** [for len(stack) > 0 && stack[len(stack)-1] != "(" &&
        precedence(token) <= precedence(stack[len(stack)-1])],
    lines 73 to 76. *)
Fixpoint pop_operators (fuel : nat) (token : string) (stack output : list string)
  : run (list string * list string) :=
  match fuel with
  | O => unfinished
  | S fuel' =>
      again ←
        (if (0 <? len stack)%Z then
           top ← index stack (len stack - 1);
           if negb (String.eqb top "(") then
             p ← precedence token;
             top' ← index stack (len stack - 1);
             q ← precedence top';
             mret (p <=? q)%Z
           else mret false
         else mret false);
      if again : bool then
        top ← index stack (len stack - 1);
        stack' ← slice_to stack (len stack - 1);
        pop_operators fuel' token stack' (output ++ [top])
      else mret (stack, output)
  end.

(** The body of [for _, token := range infix], lines 61 to 80. *)
Definition convert_token (fuel : nat) (stack output : list string) (token : string)
  : run (list string * list string + error) :=
  if String.eqb token "(" then mret (inl (stack ++ [token], output))
  else if String.eqb token ")" then
    popped ← pop_to_paren fuel stack output;
    bad ←
      (if (len popped.1 =? 0)%Z then mret true
       else
         top ← index popped.1 (len popped.1 - 1);
         mret (negb (String.eqb top "(")));
    if bad : bool then
      err ← read var_ErrExpressionSyntax;
      mret (inr err)
    else
      stack' ← slice_to popped.1 (len popped.1 - 1);
      mret (inl (stack', popped.2))
  else
    operator ← isOperator token;
    if operator : bool then
      popped ← pop_operators fuel token stack output;
      mret (inl (popped.1 ++ [token], popped.2))
    else mret (inl (stack, output ++ [token])).

(** [for _, token := range infix] *)
Fixpoint convert_tokens (fuel : nat) (stack output infix : list string)
  : run (list string * list string + error) :=
  match infix with
  | [] => mret (inl (stack, output))
  | token :: infix' =>
      step ← convert_token fuel stack output token;
      match step with
      | inl (stack', output') => convert_tokens fuel stack' output' infix'
      | inr err => mret (inr err)
      end
  end.

(** [for len(stack) > 0], lines 82 to 88, and the [return] after it. *)
Fixpoint convert_flush (fuel : nat) (stack output : list string)
  : run (list string * option error) :=
  match fuel with
  | O => unfinished
  | S fuel' =>
      if (0 <? len stack)%Z then
        top ← index stack (len stack - 1);
        if String.eqb top "(" then
          err ← read var_ErrExpressionSyntax;
          mret ([], Some err)
        else
          top' ← index stack (len stack - 1);
          stack' ← slice_to stack (len stack - 1);
          convert_flush fuel' stack' (output ++ [top'])
      else mret (output, None)
  end.

(** [func convertToPostfix(infix []string) ([]string, error)] *)
Definition convertToPostfix (fuel : nat) (infix : list string)
  : run (list string * option error) :=
  scanned ← convert_tokens fuel [] [] infix;
  match scanned with
  | inl (stack, output) => convert_flush fuel stack output
  | inr err => mret ([], Some err)
  end.

Section Evaluator.

Variable ParseFloat : string → option float.

(** The body of [for _, token := range postfix], lines 96 to 124. *)
Definition calculate_token (stack : list float) (token : string)
  : run (list float + float * option error) :=
  operator ← isOperator token;
  if operator : bool then
    if (len stack <? 2)%Z then
      err ← read var_ErrExpressionSyntax;
      mret (inr (0%float, Some err))
    else
      b ← index stack (len stack - 1);
      a ← index stack (len stack - 2);
      stack' ← slice_to stack (len stack - 2);
      if String.eqb token "+" then mret (inl (stack' ++ [(a + b)%float]))
      else if String.eqb token "-" then mret (inl (stack' ++ [(a - b)%float]))
      else if String.eqb token "*" then mret (inl (stack' ++ [(a * b)%float]))
      else if String.eqb token "/" then
        if (b =? 0)%float then
          err ← read var_ErrDivisionByZero;
          mret (inr (0%float, Some err))
        else mret (inl (stack' ++ [(a / b)%float]))
      else
        err ← read var_ErrExpressionSyntax;
        mret (inr (0%float, Some err))
  else
    match ParseFloat token with
    | None =>
        err ← read var_ErrExpressionSyntax;
        mret (inr (0%float, Some err))
    | Some value => mret (inl (stack ++ [value]))
    end.

(** [for _, token := range postfix] *)
Fixpoint calculate_tokens (stack : list float) (postfix : list string)
  : run (list float + float * option error) :=
  match postfix with
  | [] => mret (inl stack)
  | token :: postfix' =>
      step ← calculate_token stack token;
      match step with
      | inl stack' => calculate_tokens stack' postfix'
      | inr ret => mret (inr ret)
      end
  end.

(** [func calculate(postfix []string) (float64, error)] *)
Definition calculate (postfix : list string) : run (float * option error) :=
  evaluated ← calculate_tokens [] postfix;
  match evaluated with
  | inr ret => mret ret
  | inl stack =>
      if negb (len stack =? 1)%Z then
        err ← read var_ErrInvalidExpression;
        mret (0%float, Some err)
      else
        value ← index stack 0;
        mret (value, None)
  end.

(** [func Calc(expression string) (float64, error)] *)
Definition Calc (fuel : nat) (expression : string) : run (float * option error) :=
  if (String.length expression <? 3)%nat then
    err ← read var_ErrExpressionSyntax;
    mret (0%float, Some err)
  else
    converted ← convertToPostfix fuel (Calc_tokens expression);
    match converted with
    | (_, Some err) => mret (0%float, Some err)
    | (postfix, None) =>
        calculated ← calculate postfix;
        match calculated with
        | (_, Some err) => mret (0%float, Some err)
        | (result, None) => mret (result, None)
        end
    end.

End Evaluator.

End Run.

(** A computation that hands the package-level variables on as it
    received them, whenever it returns. *)
Definition keeps_globals {A : Type} (m : run A) : Prop :=
  ∀ g, match m g with
       | Returns (_, g') => g' = g
       | _ => True
       end.

(** A computation that, started at program start, returns [a] and leaves
    the package-level variables as they were. *)
Definition gives {A : Type} (m : run A) (a : A) : Prop :=
  m initial_globals = Returns (a, initial_globals).

(** 324 factors 9 and a factor 0: the product of the nines exceeds the
    largest [float64]. *)
Definition overflowing_product : string :=
  string_concat (replicate 324 "9*") +:+ "0".

(** * Properties *)

(** ** The operator table *)

Lemma isOperator_spec token :
  isOperator token = true ↔
  token = "+" ∨ token = "-" ∨ token = "*" ∨ token = "/".
Proof.
  unfold isOperator, operations. split.
  - destruct (_ !! token) as [prio|] eqn:Hlook; [intros _ | discriminate].
    rewrite !lookup_insert_Some, lookup_empty in Hlook.
    intuition (subst; auto; discriminate).
  - intros [-> | [-> | [-> | ->]]]; reflexivity.
Qed.

(** ** The postfix evaluator *)

Section EvaluatorFacts.

Variable ParseFloat : string → option float.

(** Every early return of [calculate] carries the value 0 and one of the
    two errors [ErrExpressionSyntax] and [ErrDivisionByZero]. *)
Lemma calculate_token_return stack token value err :
  calculate_token ParseFloat stack token = inr (value, err) →
  value = 0%float ∧ (err = Some ErrExpressionSyntax ∨ err = Some ErrDivisionByZero).
Proof.
  unfold calculate_token. intros Hret.
  repeat match type of Hret with
         | context [match ?scrutinee with _ => _ end] => destruct scrutinee
         end; inversion Hret; auto.
Qed.

Lemma calculate_tokens_return stack postfix value err :
  calculate_tokens ParseFloat stack postfix = inr (value, err) →
  value = 0%float ∧ (err = Some ErrExpressionSyntax ∨ err = Some ErrDivisionByZero).
Proof.
  revert stack. induction postfix as [|token postfix IH]; simpl; intros stack Hret.
  - discriminate.
  - destruct (calculate_token ParseFloat stack token) as [stack'|ret] eqn:Htoken.
    + eauto.
    + inversion Hret; subst. eapply calculate_token_return; eassumption.
Qed.

(** The three ways out of [calculate]. *)
Lemma calculate_cases postfix :
  (∃ value, calculate_tokens ParseFloat [] postfix = inl [value] ∧
            calculate ParseFloat postfix = (value, None)) ∨
  (∃ stack, calculate_tokens ParseFloat [] postfix = inl stack ∧
            length stack ≠ 1 ∧
            calculate ParseFloat postfix = (0%float, Some ErrInvalidExpression)) ∨
  (∃ err, calculate_tokens ParseFloat [] postfix = inr (0%float, Some err) ∧
          (err = ErrExpressionSyntax ∨ err = ErrDivisionByZero) ∧
          calculate ParseFloat postfix = (0%float, Some err)).
Proof.
  unfold calculate.
  destruct (calculate_tokens ParseFloat [] postfix) as [stack|[value err]] eqn:Hrun.
  - destruct stack as [|value [|second stack]].
    + right; left. exists []. auto.
    + left. eauto.
    + right; left. eexists. repeat split. simpl. lia.
  - right; right.
    destruct (calculate_tokens_return _ _ _ _ Hrun) as [-> [-> | ->]]; eauto.
Qed.

Lemma calculate_error_value postfix value err :
  calculate ParseFloat postfix = (value, Some err) → value = 0%float.
Proof.
  destruct (calculate_cases postfix)
    as [(v & _ & Heq) | [(stack & _ & _ & Heq) | (e & _ & _ & Heq)]];
    rewrite Heq; congruence.
Qed.

Lemma calculate_error_kind postfix :
  evaluator_error (snd (calculate ParseFloat postfix)).
Proof.
  unfold evaluator_error.
  destruct (calculate_cases postfix)
    as [(v & _ & Heq) | [(stack & _ & _ & Heq) | (e & _ & [-> | ->] & Heq)]];
    rewrite Heq; simpl; auto.
Qed.

End EvaluatorFacts.

(** The only error of [convertToPostfix] is [ErrExpressionSyntax], and it
    comes with the [nil] slice. *)
Lemma convert_token_error stack output token err :
  convert_token stack output token = inr err → err = ErrExpressionSyntax.
Proof.
  unfold convert_token. intros Hret.
  repeat match type of Hret with
         | context [match ?scrutinee with _ => _ end] => destruct scrutinee
         end; congruence.
Qed.

Lemma convert_tokens_error infix stack output err :
  convert_tokens stack output infix = inr err → err = ErrExpressionSyntax.
Proof.
  revert stack output.
  induction infix as [|token infix IH]; simpl; intros stack output Hret.
  - discriminate.
  - destruct (convert_token stack output token) as [[stack' output']|err'] eqn:Htoken.
    + eauto.
    + inversion Hret; subst. eapply convert_token_error; eassumption.
Qed.

Lemma convert_flush_error stack output err :
  convert_flush stack output = inr err → err = ErrExpressionSyntax.
Proof.
  revert output. induction stack as [|top stack IH]; simpl; intros output Hret.
  - discriminate.
  - destruct (String.eqb top "("); [congruence | eauto].
Qed.

Lemma convertToPostfix_cases infix :
  (∃ output, convertToPostfix infix = (output, None)) ∨
  convertToPostfix infix = ([], Some ErrExpressionSyntax).
Proof.
  unfold convertToPostfix, convert_run.
  destruct (convert_tokens [] [] infix) as [[stack output]|err] eqn:Hrun.
  - destruct (convert_flush stack output) as [[stack' output']|err] eqn:Hflush.
    + left. eauto.
    + right. apply convert_flush_error in Hflush. congruence.
  - right. apply convert_tokens_error in Hrun. congruence.
Qed.

(** ** Division *)

(** C4: with [b] on top of the value stack and [a] below it, the token "/"
    makes [calculate] return [ErrDivisionByZero] (with the value 0) exactly
    when [b == 0], whatever [a] is; otherwise the evaluation goes on with
    [a / b] in their place.  Dividing zero by zero is such a failure, and
    [Calc] returns the error on "10/0" and on "0/0". *)
Theorem calculate_division_by_zero
    (ParseFloat : string → option float) (a b : float)
    (stack : list float) (postfix : list string) :
  calculate_token ParseFloat (b :: a :: stack) "/" =
    (if (b =? 0)%float then inr (0%float, Some ErrDivisionByZero)
     else inl ((a / b)%float :: stack)) ∧
  calculate_tokens ParseFloat (b :: a :: stack) ("/" :: postfix) =
    (if (b =? 0)%float then inr (0%float, Some ErrDivisionByZero)
     else calculate_tokens ParseFloat ((a / b)%float :: stack) postfix) ∧
  calculate strconv.ParseFloat ["0"; "0"; "/"] = (0%float, Some ErrDivisionByZero) ∧
  Calc strconv.ParseFloat "0/0" = (0%float, Some ErrDivisionByZero) ∧
  Calc strconv.ParseFloat "10/0" = (0%float, Some ErrDivisionByZero).
Proof.
  assert (Hstep : calculate_token ParseFloat (b :: a :: stack) "/" =
    (if (b =? 0)%float then inr (0%float, Some ErrDivisionByZero)
     else inl ((a / b)%float :: stack))).
  { unfold calculate_token. simpl. destruct (b =? 0)%float; reflexivity. }
  split; [exact Hstep|]. split.
  - cbn [calculate_tokens]. rewrite Hstep. destruct (b =? 0)%float; reflexivity.
  - repeat split; vm_compute; reflexivity.
Qed.

(** [ErrDivisionByZero] has no other source in [calculate]. *)
Lemma calculate_token_division ParseFloat stack token value :
  calculate_token ParseFloat stack token = inr (value, Some ErrDivisionByZero) ↔
  value = 0%float ∧ token = "/" ∧
  ∃ b a stack', stack = b :: a :: stack' ∧ (b =? 0)%float = true.
Proof.
  split.
  - unfold calculate_token. intros Hret.
    destruct (isOperator token) eqn:Hop.
    + destruct stack as [|b [|a stack']]; try discriminate.
      destruct (String.eqb_spec token "+"); [discriminate|].
      destruct (String.eqb_spec token "-"); [discriminate|].
      destruct (String.eqb_spec token "*"); [discriminate|].
      destruct (String.eqb_spec token "/"); [|discriminate].
      destruct (b =? 0)%float eqn:Hzero; [|discriminate].
      inversion Hret. eauto 10.
    + destruct (ParseFloat token); discriminate.
  - intros (-> & -> & b & a & stack' & -> & Hzero).
    unfold calculate_token. simpl. rewrite Hzero. reflexivity.
Qed.

(** The comparison [b == 0] is the IEEE one: the negative zero that
    [0*(0-1)] evaluates to is a zero divisor as well. *)
Example Calc_negative_zero_divisor :
  calculate strconv.ParseFloat ["0"; "0"; "1"; "-"; "*"] = ((-0)%float, None) ∧
  Calc strconv.ParseFloat "1/(0*(0-1))" = (0%float, Some ErrDivisionByZero).
Proof. split; vm_compute; reflexivity. Qed.

(** ** The value stack *)

(** C6: when the loop over the postfix tokens ends without an early
    return, [calculate] returns the value left on the stack and a [nil]
    error if the stack holds exactly one value, and 0 with
    [ErrInvalidExpression] for every other stack size. *)
Theorem calculate_final_stack
    (ParseFloat : string → option float) (postfix : list string)
    (stack : list float) :
  calculate_tokens ParseFloat [] postfix = inl stack →
  (∀ value, stack = [value] → calculate ParseFloat postfix = (value, None)) ∧
  (length stack ≠ 1 →
   calculate ParseFloat postfix = (0%float, Some ErrInvalidExpression)).
Proof.
  intros Hrun. unfold calculate. rewrite Hrun. split.
  - intros value ->. reflexivity.
  - destruct stack as [|value [|second stack]]; simpl; intros Hsize;
      [reflexivity | lia | reflexivity].
Qed.

(** The token stream of "1 2": two operands and no operator. *)
Lemma calculate_final_stack_witness :
  (convertToPostfix (Calc_tokens "1 2")).1 = ["1"; "2"] ∧
  calculate_tokens strconv.ParseFloat [] ["1"; "2"] = inl [2%float; 1%float] ∧
  calculate strconv.ParseFloat ["1"; "2"] = (0%float, Some ErrInvalidExpression) ∧
  Calc strconv.ParseFloat "1 2" = (0%float, Some ErrInvalidExpression).
Proof.
  split; [reflexivity|]. split; [reflexivity|]. split; [|reflexivity].
  apply (calculate_final_stack strconv.ParseFloat ["1"; "2"] [2%float; 1%float]);
    [reflexivity | simpl; lia].
Defined.

(** The empty postfix sequence leaves no value at all. *)
Example calculate_empty ParseFloat :
  calculate ParseFloat [] = (0%float, Some ErrInvalidExpression).
Proof. reflexivity. Qed.

(** C7: an operator token met while the value stack holds fewer than two
    values makes [calculate] return [ErrExpressionSyntax], and [Calc]
    returns that error on "1+". *)
Theorem calculate_missing_operand :
  (∀ (ParseFloat : string → option float) (token : string)
     (stack : list float) (postfix : list string),
     isOperator token = true → length stack < 2 →
     calculate_tokens ParseFloat stack (token :: postfix)
       = inr (0%float, Some ErrExpressionSyntax)) ∧
  (∀ ParseFloat : string → option float,
     Calc ParseFloat "1+" = (0%float, Some ErrExpressionSyntax)) ∧
  calculate strconv.ParseFloat (convertToPostfix (Calc_tokens "1+")).1
    = (0%float, Some ErrExpressionSyntax).
Proof.
  split; [|split; [intros; reflexivity | vm_compute; reflexivity]].
  intros ParseFloat token stack postfix Hop Hsize.
  cbn [calculate_tokens]. unfold calculate_token. rewrite Hop.
  destruct stack as [|b [|a stack]]; simpl in Hsize; [reflexivity | reflexivity | lia].
Qed.

(** An addition applied to the single value 1. *)
Lemma calculate_missing_operand_witness :
  isOperator "+" = true ∧ length [1%float] < 2 ∧
  calculate_tokens strconv.ParseFloat [1%float] ["+"; "2"]
    = inr (0%float, Some ErrExpressionSyntax).
Proof.
  split; [reflexivity|]. split; [simpl; lia|].
  apply (proj1 calculate_missing_operand); [reflexivity | simpl; lia].
Defined.

(** ** The entry point *)

Section CalcFacts.

Variable ParseFloat : string → option float.

(** The ways out of [Calc]: the length guard, an error of the conversion,
    an error of the evaluation, or a value. *)
Lemma Calc_cases expression :
  (String.length expression < 3 ∧
   Calc ParseFloat expression = (0%float, Some ErrExpressionSyntax)) ∨
  (3 ≤ String.length expression ∧
   convertToPostfix (Calc_tokens expression) = ([], Some ErrExpressionSyntax) ∧
   Calc ParseFloat expression = (0%float, Some ErrExpressionSyntax)) ∨
  (3 ≤ String.length expression ∧
   ∃ postfix, convertToPostfix (Calc_tokens expression) = (postfix, None) ∧
     ((∃ err, calculate ParseFloat postfix = (0%float, Some err) ∧
              Calc ParseFloat expression = (0%float, Some err)) ∨
      (∃ result, calculate ParseFloat postfix = (result, None) ∧
                 Calc ParseFloat expression = (result, None)))).
Proof.
  unfold Calc.
  destruct (Nat.ltb_spec (String.length expression) 3) as [Hshort|Hlong];
    [left; auto | right].
  destruct (convertToPostfix_cases (Calc_tokens expression)) as [[postfix Hconv]|Hconv];
    rewrite Hconv; [right | left; auto].
  split; [assumption|]. exists postfix. split; [reflexivity|].
  destruct (calculate ParseFloat postfix) as [result [err|]] eqn:Hcalc.
  - left. apply calculate_error_value in Hcalc as Hzero. subst result. eauto.
  - right. eauto.
Qed.

End CalcFacts.

(** C2, as the code has it: an expression of fewer than 3 bytes, counted
    by [len] on the string as received (nothing is trimmed), makes [Calc]
    return 0 and [ErrExpressionSyntax] whatever it contains. *)
Theorem Calc_short_expression
    (ParseFloat : string → option float) (expression : string) :
  String.length expression < 3 →
  Calc ParseFloat expression = (0%float, Some ErrExpressionSyntax).
Proof.
  intros Hshort. unfold Calc.
  destruct (Nat.ltb_spec (String.length expression) 3); [reflexivity | lia].
Qed.

Lemma Calc_short_expression_witness :
  String.length "12" < 3 ∧
  Calc strconv.ParseFloat "12" = (0%float, Some ErrExpressionSyntax).
Proof.
  split; [simpl; lia|].
  apply (Calc_short_expression strconv.ParseFloat "12"). simpl; lia.
Defined.

(** C2 fails as worded: " 1 " and a run of four spaces are shorter than 3
    once trimmed, yet [Calc] returns the value 1 without an error on the
    first and [ErrInvalidExpression] on the second. *)
Lemma Calc_trimmed_length_counterexample :
  (String.length (TrimSpace " 1 ") < 3 ∧
   Calc strconv.ParseFloat " 1 " = (1%float, None)) ∧
  (String.length (TrimSpace "    ") < 3 ∧
   Calc strconv.ParseFloat "    " = (0%float, Some ErrInvalidExpression)) ∧
  ¬ (∀ expression, String.length (TrimSpace expression) < 3 →
       (Calc strconv.ParseFloat expression).2 = Some ErrExpressionSyntax).
Proof.
  split; [split; [simpl; lia | reflexivity]|].
  split; [split; [simpl; lia | reflexivity]|].
  intros Hclaim. specialize (Hclaim " 1 "). simpl in Hclaim.
  assert (Hlen : 1 < 3) by lia. apply Hclaim in Hlen. discriminate Hlen.
Qed.

(** What [Calc], [convertToPostfix] and [calculate] return: a value with a
    [nil] error, or 0 (the [nil] slice for the conversion) with one of
    [ErrExpressionSyntax], [ErrDivisionByZero] and [ErrInvalidExpression]. *)
Lemma Calc_results
    (ParseFloat : string → option float) (expression : string)
    (tokens : list string) :
  (∃ value err, Calc ParseFloat expression = (value, err) ∧
     evaluator_error err ∧ (err ≠ None → value = 0%float)) ∧
  (∃ postfix err, convertToPostfix tokens = (postfix, err) ∧
     (err = None ∨ err = Some ErrExpressionSyntax ∧ postfix = [])) ∧
  (∃ value err, calculate ParseFloat tokens = (value, err) ∧
     evaluator_error err ∧ (err ≠ None → value = 0%float)).
Proof.
  unfold evaluator_error. split; [|split].
  - destruct (Calc_cases ParseFloat expression)
      as [[_ Heq] | [(_ & _ & Heq) | (_ & postfix & _ & [(err & Hcalc & Heq) | (result & _ & Heq)])]];
      rewrite Heq; do 2 eexists; (split; [reflexivity|]); split; auto; try congruence.
    pose proof (calculate_error_kind ParseFloat postfix) as Hkind.
    rewrite Hcalc in Hkind. exact Hkind.
  - destruct (convertToPostfix_cases tokens) as [[output Heq]|Heq];
      rewrite Heq; eauto 6.
  - destruct (calculate ParseFloat tokens) as [value err] eqn:Hcalc.
    exists value, err. split; [reflexivity|]. split.
    + pose proof (calculate_error_kind ParseFloat tokens) as Hkind.
      rewrite Hcalc in Hkind. exact Hkind.
    + destruct err as [err|]; [intros _ | congruence].
      eapply calculate_error_value; eassumption.
Qed.

(** C10: whenever [Calc] returns an error, the value it returns with it
    is 0. *)
Theorem Calc_error_value
    (ParseFloat : string → option float) (expression : string)
    (value : float) (err : error) :
  Calc ParseFloat expression = (value, Some err) → value = 0%float.
Proof.
  destruct (Calc_cases ParseFloat expression)
    as [[_ Heq] | [(_ & _ & Heq) | (_ & postfix & _ & [(e & _ & Heq) | (result & _ & Heq)])]];
    rewrite Heq; congruence.
Qed.

Lemma Calc_error_value_witness :
  Calc strconv.ParseFloat "10/0"
    = ((Calc strconv.ParseFloat "10/0").1, Some ErrDivisionByZero) ∧
  (Calc strconv.ParseFloat "10/0").1 = 0%float.
Proof.
  split; [reflexivity|].
  apply (Calc_error_value strconv.ParseFloat "10/0" _ ErrDivisionByZero).
  reflexivity.
Defined.

(** ** Parentheses *)

Lemma open_parens_zero stack : open_parens stack = 0 ↔ "(" ∉ stack.
Proof.
  induction stack as [|top stack IH]; simpl.
  - split; [intros _; apply not_elem_of_nil | reflexivity].
  - rewrite not_elem_of_cons. destruct (String.eqb_spec top "(") as [->|Hne].
    + split; [discriminate | intros [Hsame _]; congruence].
    + rewrite IH. split; [intros ?; split; congruence | intros [_ ?]; assumption].
Qed.

(** The loop of the [")"] branch stops at the topmost ["("], or empties a
    stack that holds none. *)
Lemma pop_to_paren_spec stack output :
  match open_parens stack with
  | O => ∃ output', pop_to_paren stack output = ([], output')
  | S depth => ∃ stack' output',
      pop_to_paren stack output = ("(" :: stack', output') ∧
      open_parens stack' = depth
  end.
Proof.
  revert output. induction stack as [|top stack IH]; simpl; intros output.
  - eauto.
  - destruct (String.eqb_spec top "(") as [->|Hne]; simpl.
    + eauto.
    + apply IH.
Qed.

(** The loop of the operator branch never removes a ["("]. *)
Lemma pop_operators_open token stack output :
  open_parens (pop_operators token stack output).1 = open_parens stack.
Proof.
  revert output. induction stack as [|top stack IH]; simpl; intros output.
  - reflexivity.
  - destruct (String.eqb_spec top "(") as [->|Hne]; simpl.
    + reflexivity.
    + destruct (precedence token <=? precedence top)%Z; simpl.
      * apply IH.
      * destruct (String.eqb_spec top "("); congruence.
Qed.

(** One token of the conversion moves the number of ["("] on the stack as
    the scan of the parentheses moves the nesting depth. *)
Lemma convert_token_depth stack output token tokens :
  paren_depth (open_parens stack) (token :: tokens) =
  match convert_token stack output token with
  | inl (stack', _) => paren_depth (open_parens stack') tokens
  | inr _ => None
  end.
Proof.
  unfold convert_token. cbn [paren_depth].
  destruct (String.eqb_spec token "(") as [->|Hopen].
  { reflexivity. }
  destruct (String.eqb_spec token ")") as [->|Hclose].
  { pose proof (pop_to_paren_spec stack output) as Hpop.
    destruct (open_parens stack) as [|depth].
    - destruct Hpop as [output' ->]. reflexivity.
    - destruct Hpop as (stack' & output' & -> & <-). reflexivity. }
  destruct (isOperator token).
  - pose proof (pop_operators_open token stack output) as Hpop.
    destruct (pop_operators token stack output) as [stack' output'].
    simpl in *. destruct (String.eqb_spec token "("); congruence.
  - reflexivity.
Qed.

Lemma convert_tokens_depth infix stack output :
  paren_depth (open_parens stack) infix =
  match convert_tokens stack output infix with
  | inl (stack', _) => Some (open_parens stack')
  | inr _ => None
  end.
Proof.
  revert stack output.
  induction infix as [|token infix IH]; intros stack output.
  - reflexivity.
  - rewrite (convert_token_depth stack output). cbn [convert_tokens].
    destruct (convert_token stack output token) as [[stack' output']|err].
    + apply IH.
    + reflexivity.
Qed.

(** The final loop fails exactly on a stack that holds a ["("], and leaves
    nothing on the stack otherwise. *)
Lemma convert_flush_spec stack output :
  match convert_flush stack output with
  | inl (stack', _) => stack' = [] ∧ open_parens stack = 0
  | inr err => err = ErrExpressionSyntax ∧ open_parens stack ≠ 0
  end.
Proof.
  revert output. induction stack as [|top stack IH]; simpl; intros output.
  - auto.
  - destruct (String.eqb_spec top "(") as [->|Hne].
    + auto.
    + apply IH.
Qed.

(** The conversion succeeds exactly on the token lists whose parentheses
    match. *)
Lemma convert_run_matched infix :
  match convert_run infix with
  | inl (stack, _) => stack = [] ∧ parens_matched infix = true
  | inr err => err = ErrExpressionSyntax ∧ parens_matched infix = false
  end.
Proof.
  unfold convert_run, parens_matched.
  change 0 with (open_parens []) at 1 2.
  rewrite (convert_tokens_depth infix [] []).
  destruct (convert_tokens [] [] infix) as [[stack output]|err] eqn:Hrun.
  - pose proof (convert_flush_spec stack output) as Hflush.
    destruct (convert_flush stack output) as [[stack' output']|err].
    + destruct Hflush as [-> ->]. auto.
    + destruct Hflush as [-> Hopen]. split; [reflexivity|].
      destruct (open_parens stack); congruence.
  - apply convert_tokens_error in Hrun. auto.
Qed.

Lemma convertToPostfix_matched infix :
  parens_matched infix = true ↔ (convertToPostfix infix).2 = None.
Proof.
  unfold convertToPostfix. pose proof (convert_run_matched infix) as Hrun.
  destruct (convert_run infix) as [[stack output]|err]; simpl.
  - tauto.
  - destruct Hrun as [_ ->]. split; discriminate.
Qed.

Lemma convert_tokens_app before after stack output :
  convert_tokens stack output (before ++ after) =
  match convert_tokens stack output before with
  | inl (stack', output') => convert_tokens stack' output' after
  | inr err => inr err
  end.
Proof.
  revert stack output.
  induction before as [|token before IH]; intros stack output; [reflexivity|].
  cbn [app convert_tokens].
  destruct (convert_token stack output token) as [[stack' output']|err];
    [apply IH | reflexivity].
Qed.

(** A [")"] met while the stack holds no ["("] ends the loop over the
    tokens with the error. *)
Lemma convert_tokens_close stack output infix :
  "(" ∉ stack →
  convert_tokens stack output (")" :: infix) = inr ErrExpressionSyntax.
Proof.
  intros Hnone. apply open_parens_zero in Hnone.
  cbn [convert_tokens]. unfold convert_token. simpl.
  pose proof (pop_to_paren_spec stack output) as Hpop. rewrite Hnone in Hpop.
  destruct Hpop as [output' ->]. reflexivity.
Qed.

(** A ["("] left on the stack makes the final loop return the error. *)
Lemma convert_flush_open stack output :
  "(" ∈ stack → convert_flush stack output = inr ErrExpressionSyntax.
Proof.
  intros Hsome. pose proof (convert_flush_spec stack output) as Hflush.
  destruct (convert_flush stack output) as [[stack' output']|err].
  - destruct Hflush as [_ Hzero]. apply open_parens_zero in Hzero. contradiction.
  - destruct Hflush as [-> _]. reflexivity.
Qed.

(** C5: [convertToPostfix] returns [ErrExpressionSyntax] (and the [nil]
    slice) when a [")"] is met while the operator stack holds no ["("],
    when a ["("] is still on the stack once the tokens are consumed, and so
    on every token list whose parentheses do not match; when it succeeds
    the operator stack is left empty.  [Calc] returns the error on
    "(1+2". *)
Theorem convertToPostfix_unmatched_parens :
  (∀ before after stack output,
     convert_tokens [] [] before = inl (stack, output) → "(" ∉ stack →
     convertToPostfix (before ++ ")" :: after) = ([], Some ErrExpressionSyntax)) ∧
  (∀ infix stack output,
     convert_tokens [] [] infix = inl (stack, output) → "(" ∈ stack →
     convertToPostfix infix = ([], Some ErrExpressionSyntax)) ∧
  (∀ infix, parens_matched infix = false →
     convertToPostfix infix = ([], Some ErrExpressionSyntax)) ∧
  (∀ infix stack output, convert_run infix = inl (stack, output) →
     stack = [] ∧ convertToPostfix infix = (output, None)) ∧
  (∀ ParseFloat : string → option float,
     Calc ParseFloat "(1+2" = (0%float, Some ErrExpressionSyntax)).
Proof.
  split; [|split; [|split; [|split]]].
  - intros before after stack output Hrun Hnone.
    unfold convertToPostfix, convert_run.
    rewrite convert_tokens_app, Hrun, convert_tokens_close by exact Hnone.
    reflexivity.
  - intros infix stack output Hrun Hsome.
    unfold convertToPostfix, convert_run.
    rewrite Hrun, convert_flush_open by exact Hsome. reflexivity.
  - intros infix Hbad. unfold convertToPostfix.
    pose proof (convert_run_matched infix) as Hrun.
    destruct (convert_run infix) as [[stack output]|err].
    + destruct Hrun as [_ Hgood]. congruence.
    + destruct Hrun as [-> _]. reflexivity.
  - intros infix stack output Heq. unfold convertToPostfix.
    pose proof (convert_run_matched infix) as Hrun. rewrite Heq in *.
    split; [tauto | reflexivity].
  - intros ParseFloat. reflexivity.
Qed.

Lemma convertToPostfix_unmatched_parens_witness :
  (convert_tokens [] [] ["1"; "+"; "2"] = inl (["+"], ["1"; "2"]) ∧
   ("(" ∉ ["+"]) ∧
   convertToPostfix (["1"; "+"; "2"] ++ ")" :: ["*"; "3"])
     = ([], Some ErrExpressionSyntax)) ∧
  (convert_tokens [] [] ["("; "1"; "+"; "2"] = inl (["+"; "("], ["1"; "2"]) ∧
   ("(" ∈ ["+"; "("]) ∧
   convertToPostfix ["("; "1"; "+"; "2"] = ([], Some ErrExpressionSyntax)) ∧
  (parens_matched (Calc_tokens "(1+2))") = false ∧
   convertToPostfix (Calc_tokens "(1+2))") = ([], Some ErrExpressionSyntax)) ∧
  (convert_run (Calc_tokens "(1+2)*3") = inl ([], ["1"; "2"; "+"; "3"; "*"]) ∧
   convertToPostfix (Calc_tokens "(1+2)*3") = (["1"; "2"; "+"; "3"; "*"], None)).
Proof.
  destruct convertToPostfix_unmatched_parens
    as (Hclose & Hopen & Hunmatched & Hsuccess & _).
  assert (Hnone : "(" ∉ ["+"]) by (apply (bool_decide_unpack _); reflexivity).
  assert (Hsome : "(" ∈ ["+"; "("]) by (apply (bool_decide_unpack _); reflexivity).
  split.
  { split; [reflexivity|]. split; [exact Hnone|].
    apply (Hclose ["1"; "+"; "2"] ["*"; "3"] ["+"] ["1"; "2"]);
      [reflexivity | exact Hnone]. }
  split.
  { split; [reflexivity|]. split; [exact Hsome|].
    apply (Hopen ["("; "1"; "+"; "2"] ["+"; "("] ["1"; "2"]);
      [reflexivity | exact Hsome]. }
  split; [split; [reflexivity | apply Hunmatched; reflexivity]|].
  split; [reflexivity|].
  apply (Hsuccess (Calc_tokens "(1+2)*3") []). reflexivity.
Defined.

(** ** Tokens *)

Lemma append_String c s t : String c s +:+ t = String c (s +:+ t).
Proof. reflexivity. Qed.

Lemma string_take_drop n s : string_take n s +:+ string_drop n s = s.
Proof.
  revert s. induction n as [|n IH]; intros [|c s]; try reflexivity.
  cbn [string_take string_drop]. rewrite append_String, IH. reflexivity.
Qed.

Lemma string_filter_app keep s t :
  string_filter keep (s +:+ t) = string_filter keep s +:+ string_filter keep t.
Proof.
  induction s as [|c s IH]; [reflexivity|].
  rewrite append_String. cbn [string_filter]. rewrite IH.
  destruct (keep c); reflexivity.
Qed.

Lemma first_sizes c sz lo hi :
  utf8.first c = Some (sz, (lo, hi)) → sz = 2 ∨ sz = 3 ∨ sz = 4.
Proof.
  unfold utf8.first. intros Hfirst.
  repeat match type of Hfirst with
         | context [if ?test then _ else _] => destruct test
         end; inversion Hfirst; auto.
Qed.

(** The width of the first sequence of a non-empty string is at least 1 and
    at most the length of the string. *)
Lemma DecodeRuneInString_bounds c rest :
  1 ≤ utf8.DecodeRuneInString (String c rest) ≤ String.length (String c rest).
Proof.
  unfold utf8.DecodeRuneInString.
  destruct (utf8.first (utf8.byte_val c)) as [[sz [lo hi]]|]; simpl; [|lia].
  repeat match goal with
         | |- context [if ?test then _ else _] => destruct test
         | |- context [match ?t with "" => _ | String _ _ => _ end] =>
             destruct t; simpl
         end; lia.
Qed.

(** Decoding the first sequence of [s] on its own gives the same width. *)
Lemma DecodeRuneInString_take s :
  utf8.DecodeRuneInString (string_take (utf8.DecodeRuneInString s) s)
  = utf8.DecodeRuneInString s.
Proof.
  destruct s as [|s0 t0]; [reflexivity|].
  unfold utf8.DecodeRuneInString at 2 3.
  destruct (utf8.first (utf8.byte_val s0)) as [[sz [lo hi]]|] eqn:Hfirst.
  2: { simpl. rewrite Hfirst. reflexivity. }
  assert (Hone : utf8.DecodeRuneInString (String s0 "") = 1).
  { simpl. rewrite Hfirst.
    destruct (first_sizes _ _ _ _ Hfirst) as [-> | [-> | ->]]; reflexivity. }
  destruct (String.length (String s0 t0) <? sz) eqn:Hlen; [exact Hone|].
  destruct t0 as [|s1 t1]; [exact Hone|].
  destruct (utf8.outside lo hi s1) eqn:Hs1; [exact Hone|].
  destruct (first_sizes _ _ _ _ Hfirst) as [-> | [-> | ->]].
  - simpl. rewrite Hfirst. simpl. rewrite Hs1. reflexivity.
  - simpl. destruct t1 as [|s2 t2]; [exact Hone|].
    destruct (utf8.outside 128 191 s2) eqn:Hs2; [exact Hone|].
    simpl. rewrite Hfirst. simpl. rewrite Hs1, Hs2. reflexivity.
  - simpl. destruct t1 as [|s2 t2]; [exact Hone|].
    destruct (utf8.outside 128 191 s2) eqn:Hs2; [exact Hone|].
    destruct t2 as [|s3 t3]; [exact Hone|].
    destruct (utf8.outside 128 191 s3) eqn:Hs3; [exact Hone|].
    simpl. rewrite Hfirst. simpl. rewrite Hs1, Hs2, Hs3. reflexivity.
Qed.

Lemma string_take_length n s :
  n ≤ String.length s → String.length (string_take n s) = n.
Proof.
  revert s. induction n as [|n IH]; intros [|c s]; simpl; try lia.
  intros Hle. rewrite IH; lia.
Qed.

(** The pieces of [explode] put together give the string back. *)
Lemma explode_concat s : string_concat (strings.explode s) = s.
Proof.
  funelim (strings.explode s); simp explode; [reflexivity|].
  cbn [string_concat].
  match goal with IH : string_concat _ = _ |- _ => rewrite IH end.
  pose proof (DecodeRuneInString_bounds c rest) as [Hpos _].
  destruct (utf8.DecodeRuneInString (String c rest)) as [|width]; [lia|].
  replace (S width - 1) with width by lia.
  cbn [string_take]. rewrite append_String, string_take_drop. reflexivity.
Qed.

(** Every piece of [explode] is a single sequence. *)
Lemma explode_single_rune s : Forall single_rune (strings.explode s).
Proof.
  funelim (strings.explode s); simp explode; constructor; [|assumption].
  pose proof (DecodeRuneInString_bounds c rest) as [Hpos Hlen].
  unfold single_rune. split.
  - destruct (utf8.DecodeRuneInString (String c rest)); [lia | discriminate].
  - rewrite DecodeRuneInString_take, string_take_length; [reflexivity | exact Hlen].
Qed.

Lemma replace_from_space s : strings.replace_from " " "" 0 s = strip_spaces s.
Proof.
  unfold strip_spaces, is_space.
  induction s as [|c s IH]; [reflexivity|].
  cbn [strings.replace_from string_filter].
  unfold strings.HasPrefix. cbn [String.prefix].
  change (String.length " " - 1) with 0. rewrite IH.
  destruct (ascii_dec " " c) as [<-|Hne].
  - replace (String.prefix "" s) with true by (destruct s; reflexivity).
    reflexivity.
  - destruct (Ascii.eqb_spec c " ") as [->|_]; [congruence | reflexivity].
Qed.

Lemma Calc_tokens_explode expression :
  Calc_tokens expression = strings.explode (strip_spaces expression).
Proof.
  unfold Calc_tokens, strings.Split, strings.ReplaceAll. simpl.
  rewrite replace_from_space. reflexivity.
Qed.

(** Past the length guard, [Calc] is the conversion followed by the
    evaluation of the tokens. *)
Lemma Calc_long_expression ParseFloat expression :
  3 ≤ String.length expression →
  Calc ParseFloat expression =
  match convertToPostfix (Calc_tokens expression) with
  | (postfix, None) => calculate ParseFloat postfix
  | (_, Some err) => (0%float, Some err)
  end.
Proof.
  intros Hlong. unfold Calc.
  destruct (Nat.ltb_spec (String.length expression) 3); [lia|]. cbn zeta.
  destruct (convertToPostfix (Calc_tokens expression)) as [postfix [err|]];
    [reflexivity|].
  destruct (calculate ParseFloat postfix) as [result [err|]] eqn:Hcalc;
    [|reflexivity].
  apply calculate_error_value in Hcalc. subst result. reflexivity.
Qed.

(** C3, as the code has it: the tokens of [Calc] are the UTF-8 sequences of
    the expression without its space characters (U+0020, the only
    character that is removed), one token per sequence; a space added
    anywhere leaves the tokens as they are; and on an expression of 3 bytes
    or more [Calc] is the conversion to postfix followed by the evaluation
    of these tokens. *)
Theorem Calc_tokens_without_spaces
    (ParseFloat : string → option float) (expression : string) :
  Calc_tokens expression = strings.explode (strip_spaces expression) ∧
  string_concat (Calc_tokens expression) = strip_spaces expression ∧
  Forall single_rune (Calc_tokens expression) ∧
  (∀ before after,
     expression = before +:+ " " +:+ after →
     Calc_tokens expression = Calc_tokens (before +:+ after)) ∧
  (3 ≤ String.length expression →
   Calc ParseFloat expression =
   match convertToPostfix (Calc_tokens expression) with
   | (postfix, None) => calculate ParseFloat postfix
   | (_, Some err) => (0%float, Some err)
   end).
Proof.
  rewrite Calc_tokens_explode.
  split; [reflexivity|]. split; [apply explode_concat|].
  split; [apply explode_single_rune|]. split.
  - intros before after ->. rewrite Calc_tokens_explode. f_equal.
    unfold strip_spaces. rewrite !string_filter_app. reflexivity.
  - intros Hlong. rewrite <- Calc_tokens_explode.
    apply Calc_long_expression. exact Hlong.
Qed.

Lemma Calc_tokens_without_spaces_witness :
  Calc_tokens " 2 * 3" = ["2"; "*"; "3"] ∧
  Calc_tokens " 2 * 3" = Calc_tokens (" 2" +:+ "* 3") ∧
  3 ≤ String.length " 2 * 3" ∧
  Calc strconv.ParseFloat " 2 * 3" = (6%float, None).
Proof.
  destruct (Calc_tokens_without_spaces strconv.ParseFloat " 2 * 3")
    as (Htokens & _ & _ & Hspace & Hcalc).
  split; [exact Htokens|].
  split; [apply (Hspace " 2" "* 3"); reflexivity|].
  split; [simpl; lia|].
  rewrite Hcalc; [reflexivity | simpl; lia].
Defined.

(** C3 fails as worded: a tab is white space, yet it stays in the
    expression as a token of its own and changes the result. *)
Lemma Calc_tokens_tab_counterexample :
  is_whitespace "009" = true ∧
  Calc_tokens (String "1" (String "009" "+1"))
    = ["1"; String "009" ""; "+"; "1"] ∧
  Calc_tokens (String "1" (String "009" "+1"))
    ≠ strings.Split (strip_whitespace (String "1" (String "009" "+1"))) "" ∧
  Calc strconv.ParseFloat (String "1" (String "009" "+1"))
    = (0%float, Some ErrExpressionSyntax) ∧
  Calc strconv.ParseFloat (strip_whitespace (String "1" (String "009" "+1")))
    = (2%float, None) ∧
  ¬ (∀ expression,
       Calc_tokens expression = strings.Split (strip_whitespace expression) "").
Proof.
  split; [reflexivity|]. split; [reflexivity|].
  split; [vm_compute; discriminate|].
  split; [reflexivity|]. split; [reflexivity|].
  intros Hclaim. specialize (Hclaim (String "1" (String "009" "+1"))).
  vm_compute in Hclaim. discriminate Hclaim.
Qed.

(** ** The operands that reach the parser *)

Section TokenFlow.

Variable keeps : string → Prop.

Lemma pop_to_paren_Forall stack output :
  Forall keeps stack → Forall keeps output →
  Forall keeps (pop_to_paren stack output).1 ∧
  Forall keeps (pop_to_paren stack output).2.
Proof.
  revert output. induction stack as [|top stack IH]; simpl; intros output Hs Ho.
  - auto.
  - destruct (negb (String.eqb top "(")); simpl; [|auto].
    inversion Hs; subst. apply IH; [assumption|].
    apply Forall_app; auto.
Qed.

Lemma pop_operators_Forall token stack output :
  Forall keeps stack → Forall keeps output →
  Forall keeps (pop_operators token stack output).1 ∧
  Forall keeps (pop_operators token stack output).2.
Proof.
  revert output. induction stack as [|top stack IH]; simpl; intros output Hs Ho.
  - auto.
  - destruct (negb (String.eqb top "(") && (precedence token <=? precedence top)%Z);
      simpl; [|auto].
    inversion Hs; subst. apply IH; [assumption|].
    apply Forall_app; auto.
Qed.

Lemma convert_token_Forall stack output token stack' output' :
  Forall keeps stack → Forall keeps output → keeps token →
  convert_token stack output token = inl (stack', output') →
  Forall keeps stack' ∧ Forall keeps output'.
Proof.
  intros Hs Ho Ht. unfold convert_token.
  destruct (String.eqb token "(").
  { intros [= <- <-]. auto. }
  destruct (String.eqb token ")").
  { destruct (pop_to_paren_Forall stack output Hs Ho) as [Hs' Ho'].
    destruct (pop_to_paren stack output) as [[|top rest] out]; [discriminate|].
    simpl in *. destruct (negb (String.eqb top "(")); [discriminate|].
    intros [= <- <-]. inversion Hs'; subst. auto. }
  destruct (isOperator token).
  - destruct (pop_operators_Forall token stack output Hs Ho) as [Hs' Ho'].
    destruct (pop_operators token stack output) as [rest out].
    intros [= <- <-]. auto.
  - intros [= <- <-]. split; [assumption|]. apply Forall_app; auto.
Qed.

Lemma convert_tokens_Forall infix stack output stack' output' :
  Forall keeps stack → Forall keeps output → Forall keeps infix →
  convert_tokens stack output infix = inl (stack', output') →
  Forall keeps stack' ∧ Forall keeps output'.
Proof.
  revert stack output.
  induction infix as [|token infix IH]; simpl; intros stack output Hs Ho Hi.
  - intros [= <- <-]. auto.
  - inversion Hi as [|? ? Ht Hrest]; subst.
    destruct (convert_token stack output token) as [[stack1 output1]|err] eqn:Htoken;
      [|discriminate].
    destruct (convert_token_Forall _ _ _ _ _ Hs Ho Ht Htoken).
    apply IH; assumption.
Qed.

Lemma convert_flush_Forall stack output stack' output' :
  Forall keeps stack → Forall keeps output →
  convert_flush stack output = inl (stack', output') →
  Forall keeps output'.
Proof.
  revert output. induction stack as [|top stack IH]; simpl; intros output Hs Ho.
  - intros [= <- <-]. assumption.
  - destruct (String.eqb top "("); [discriminate|].
    inversion Hs; subst. apply IH; [assumption|]. apply Forall_app; auto.
Qed.

(** Every token of the postfix sequence is a token of the infix one. *)
Lemma convertToPostfix_Forall infix :
  Forall keeps infix → Forall keeps (convertToPostfix infix).1.
Proof.
  intros Hi. unfold convertToPostfix, convert_run.
  destruct (convert_tokens [] [] infix) as [[stack output]|err] eqn:Hrun;
    simpl; [|constructor].
  destruct (convert_tokens_Forall _ _ _ _ _ (Forall_nil_2 _) (Forall_nil_2 _) Hi Hrun)
    as [Hs Ho].
  destruct (convert_flush stack output) as [[stack' output']|err] eqn:Hflush;
    simpl; [|constructor].
  exact (convert_flush_Forall _ _ _ _ Hs Ho Hflush).
Qed.

End TokenFlow.

Lemma calculate_tokens_ext (parse parse' : string → option float) postfix stack :
  Forall (λ token, parse token = parse' token) postfix →
  calculate_tokens parse stack postfix = calculate_tokens parse' stack postfix.
Proof.
  intros Hsame. revert stack.
  induction Hsame as [|token postfix Htoken _ IH]; intros stack; [reflexivity|].
  cbn [calculate_tokens]. unfold calculate_token. rewrite Htoken.
  destruct (isOperator token).
  - repeat match goal with
           | |- context [match ?scrutinee with _ => _ end] => destruct scrutinee
           end; auto.
  - destruct (parse' token); auto.
Qed.

(** [Calc] consults the parser on single UTF-8 sequences only: two parsers
    that agree on these give the same [Calc].  The results stated for
    [strconv.ParseFloat] above therefore hold for any account of
    [strconv.ParseFloat] that accepts exactly the decimal digits among the
    one-sequence strings. *)
Lemma Calc_parser_runes (parse parse' : string → option float) expression :
  (∀ token, single_rune token → parse token = parse' token) →
  Calc parse expression = Calc parse' expression.
Proof.
  intros Hsame. unfold Calc.
  destruct (String.length expression <? 3); [reflexivity|]. cbn zeta.
  assert (Hpost : Forall (λ token, parse token = parse' token)
                    (convertToPostfix (Calc_tokens expression)).1).
  { apply convertToPostfix_Forall. rewrite Calc_tokens_explode.
    eapply Forall_impl; [apply explode_single_rune | exact Hsame]. }
  destruct (convertToPostfix (Calc_tokens expression)) as [postfix [err|]];
    [reflexivity|].
  unfold calculate. simpl in Hpost.
  rewrite (calculate_tokens_ext parse parse' postfix [] Hpost). reflexivity.
Qed.

(** * Further properties *)

(** ** The operator table, key by key *)

Lemma operations_lookup token :
  (token = "+" ∧ operations !! token = Some 1%Z) ∨
  (token = "-" ∧ operations !! token = Some 1%Z) ∨
  (token = "*" ∧ operations !! token = Some 2%Z) ∨
  (token = "/" ∧ operations !! token = Some 2%Z) ∨
  (token ≠ "+" ∧ token ≠ "-" ∧ token ≠ "*" ∧ token ≠ "/" ∧
   operations !! token = None).
Proof.
  destruct (decide (token = "+")) as [->|Hplus]; [left; auto|].
  destruct (decide (token = "-")) as [->|Hminus]; [right; left; auto|].
  destruct (decide (token = "*")) as [->|Htimes]; [do 2 right; left; auto|].
  destruct (decide (token = "/")) as [->|Hdiv]; [do 3 right; left; auto|].
  do 4 right. repeat (split; [assumption|]).
  unfold operations. rewrite !lookup_insert_ne by congruence. apply lookup_empty.
Qed.

Lemma precedence_range token : (0 ≤ precedence token ≤ 2)%Z.
Proof.
  unfold precedence.
  destruct (operations_lookup token)
    as [[_ ->] | [[_ ->] | [[_ ->] | [[_ ->] | (_ & _ & _ & _ & ->)]]]]; lia.
Qed.

Lemma isOperator_precedence token :
  isOperator token = true ↔ (1 ≤ precedence token)%Z.
Proof.
  unfold isOperator, precedence.
  destruct (operations_lookup token)
    as [[_ ->] | [[_ ->] | [[_ ->] | [[_ ->] | (_ & _ & _ & _ & ->)]]]];
    split; intros; try reflexivity; try lia; discriminate.
Qed.

(** X1: the table gives priority 1 to "+" and "-" and priority 2 to "*"
    and "/"; for every other string the lookup of [precedence] misses and
    yields 0, and [isOperator] accepts a string exactly when its priority
    is not 0. *)
Theorem operations_table (token : string) :
  (precedence token = 1%Z ↔ token = "+" ∨ token = "-") ∧
  (precedence token = 2%Z ↔ token = "*" ∨ token = "/") ∧
  (precedence token = 0%Z ↔
     token ≠ "+" ∧ token ≠ "-" ∧ token ≠ "*" ∧ token ≠ "/") ∧
  isOperator token = negb (precedence token =? 0)%Z.
Proof.
  unfold isOperator, precedence.
  destruct (operations_lookup token)
    as [[-> ->] | [[-> ->] | [[-> ->] | [[-> ->] | (? & ? & ? & ? & ->)]]]];
    (repeat split; try reflexivity; try discriminate; try lia; try tauto;
     try (intros [? | ?]; congruence); try (intros (? & ? & ? & ?); congruence);
     auto).
Qed.

(** ** The evaluation of an expression in postfix notation *)

Lemma is_operand_spec token :
  is_operand token = true ↔
  token ≠ "(" ∧ token ≠ ")" ∧ isOperator token = false.
Proof.
  unfold is_operand.
  destruct (String.eqb_spec token "("), (String.eqb_spec token ")"),
    (isOperator token); simpl; split; try tauto; try discriminate;
    intros (? & ? & ?); congruence.
Qed.

Lemma isOperator_not_paren token :
  isOperator token = true → token ≠ "(" ∧ token ≠ ")".
Proof. rewrite isOperator_spec. intuition (subst; discriminate). Qed.

Lemma calculate_tokens_app ParseFloat before after stack :
  calculate_tokens ParseFloat stack (before ++ after) =
  match calculate_tokens ParseFloat stack before with
  | inl stack' => calculate_tokens ParseFloat stack' after
  | inr ret => inr ret
  end.
Proof.
  revert stack. induction before as [|token before IH]; intros stack;
    [reflexivity|].
  cbn [app calculate_tokens].
  destruct (calculate_token ParseFloat stack token); [apply IH | reflexivity].
Qed.

(** On two values the operator branch of [calculate] is the arithmetic of
    the operator. *)
Lemma calculate_token_operator ParseFloat op a b stack :
  isOperator op = true →
  calculate_token ParseFloat (b :: a :: stack) op =
  match apply_operator op a b with
  | inl value => inl (value :: stack)
  | inr err => inr (0%float, Some err)
  end.
Proof.
  intros Hop. unfold calculate_token, apply_operator. rewrite Hop.
  repeat match goal with
         | |- context [if ?test then _ else _] => destruct test
         end; reflexivity.
Qed.

Lemma calculate_token_operand ParseFloat token stack :
  isOperator token = false →
  calculate_token ParseFloat stack token =
  match ParseFloat token with
  | Some value => inl (value :: stack)
  | None => inr (0%float, Some ErrExpressionSyntax)
  end.
Proof.
  intros Hop. unfold calculate_token. rewrite Hop.
  destruct (ParseFloat token); reflexivity.
Qed.

Lemma calculate_tokens_postfix_of ParseFloat e :
  well_formed e = true →
  ∀ stack rest,
    calculate_tokens ParseFloat stack (postfix_of e ++ rest) =
    match eval ParseFloat e with
    | inl value => calculate_tokens ParseFloat (value :: stack) rest
    | inr err => inr (0%float, Some err)
    end.
Proof.
  induction e as [token | op lhs IHl rhs IHr | inner IH];
    cbn [well_formed postfix_of eval]; intros Hwf stack rest.
  - apply is_operand_spec in Hwf as (_ & _ & Hop).
    cbn [app calculate_tokens]. rewrite calculate_token_operand by exact Hop.
    destruct (ParseFloat token); reflexivity.
  - apply andb_prop in Hwf as [Hwf Hr]. apply andb_prop in Hwf as [Hop Hl].
    rewrite <- !app_assoc. rewrite IHl by exact Hl.
    destruct (eval ParseFloat lhs) as [a|err]; [|reflexivity].
    rewrite IHr by exact Hr.
    destruct (eval ParseFloat rhs) as [b|err]; [|reflexivity].
    cbn [app calculate_tokens]. rewrite calculate_token_operator by exact Hop.
    destruct (apply_operator op a b); reflexivity.
  - apply IH. exact Hwf.
Qed.

(** X2: run on the postfix notation of a well-formed expression,
    [calculate] returns the value of the expression, its operands read by
    [strconv.ParseFloat] and its operators applied to the values of their
    two subexpressions, or the first error met from left to right:
    [ErrExpressionSyntax] for an operand that does not parse and
    [ErrDivisionByZero] for a divisor equal to zero.  Inside a longer
    sequence the value is pushed and the evaluation continues. *)
Theorem calculate_postfix_of
    (ParseFloat : string → option float) (e : expr)
    (stack : list float) (rest : list string) :
  well_formed e = true →
  calculate ParseFloat (postfix_of e) = returned (eval ParseFloat e) ∧
  calculate_tokens ParseFloat stack (postfix_of e ++ rest) =
    match eval ParseFloat e with
    | inl value => calculate_tokens ParseFloat (value :: stack) rest
    | inr err => inr (0%float, Some err)
    end.
Proof.
  intros Hwf. split; [|apply calculate_tokens_postfix_of; exact Hwf].
  unfold calculate.
  rewrite <- (app_nil_r (postfix_of e)), calculate_tokens_postfix_of by exact Hwf.
  destruct (eval ParseFloat e); reflexivity.
Qed.

Lemma calculate_postfix_of_witness :
  well_formed (Binary "/" (Operand "8") (Binary "-" (Operand "5") (Operand "3")))
    = true ∧
  postfix_of (Binary "/" (Operand "8") (Binary "-" (Operand "5") (Operand "3")))
    = ["8"; "5"; "3"; "-"; "/"] ∧
  calculate strconv.ParseFloat
    (postfix_of (Binary "/" (Operand "8") (Binary "-" (Operand "5") (Operand "3"))))
    = (4%float, None).
Proof.
  split; [reflexivity|]. split; [reflexivity|].
  apply (calculate_postfix_of strconv.ParseFloat
           (Binary "/" (Operand "8") (Binary "-" (Operand "5") (Operand "3")))
           [] []).
  reflexivity.
Defined.

(** ** The conversion of an expression in infix notation *)

Lemma stack_below_le level level' stack :
  stack_below level stack → (level ≤ level')%Z → stack_below level' stack.
Proof.
  destruct stack as [|top stack]; simpl; [auto|].
  intros [Hopen | Hlow] Hle; [left; exact Hopen | right; lia].
Qed.

(** An operator leaves alone a stack whose top is of lower priority. *)
Lemma pop_operators_below level token stack output :
  stack_below level stack → (level ≤ precedence token)%Z →
  pop_operators token stack output = (stack, output).
Proof.
  destruct stack as [|top stack]; simpl; [reflexivity|].
  intros [-> | Hlow] Hle; [reflexivity|].
  destruct (Z.leb_spec (precedence token) (precedence top)); [lia|].
  rewrite andb_false_r. reflexivity.
Qed.

(** An operator on top of the stack yields to a token of the same or of
    lower priority. *)
Lemma pop_operators_yield token op stack output :
  op ≠ "(" → (precedence token ≤ precedence op)%Z →
  pop_operators token (op :: stack) output
  = pop_operators token stack (output ++ [op]).
Proof.
  intros Hop Hle. cbn [pop_operators].
  destruct (String.eqb_spec op "("); [contradiction|].
  destruct (Z.leb_spec (precedence token) (precedence op)); [reflexivity | lia].
Qed.

(** The loop of the [")"] branch is the loop of an operator of priority 0. *)
Lemma pop_to_paren_operators stack output :
  pop_to_paren stack output = pop_operators ")" stack output.
Proof.
  revert output. induction stack as [|top stack IH]; intros output; [reflexivity|].
  cbn [pop_to_paren pop_operators]. rewrite IH.
  change (precedence ")") with 0%Z.
  destruct (Z.leb_spec 0 (precedence top)) as [_|Hneg].
  - rewrite andb_true_r. reflexivity.
  - pose proof (precedence_range top). lia.
Qed.

Lemma convert_token_operand stack output token :
  is_operand token = true →
  convert_token stack output token = inl (stack, output ++ [token]).
Proof.
  intros Hoperand. apply is_operand_spec in Hoperand as (Hopen & Hclose & Hop).
  unfold convert_token.
  destruct (String.eqb_spec token "("); [contradiction|].
  destruct (String.eqb_spec token ")"); [contradiction|].
  rewrite Hop. reflexivity.
Qed.

Lemma convert_token_operator stack output op :
  isOperator op = true →
  convert_token stack output op =
  inl (op :: (pop_operators op stack output).1, (pop_operators op stack output).2).
Proof.
  intros Hop. destruct (isOperator_not_paren op Hop) as [Hopen Hclose].
  unfold convert_token.
  destruct (String.eqb_spec op "("); [contradiction|].
  destruct (String.eqb_spec op ")"); [contradiction|].
  rewrite Hop. destruct (pop_operators op stack output); reflexivity.
Qed.

(** A parenthesised run of tokens whose conversion, started on a fresh
    ["("], ends with that ["("] reached by the loop of [")"]. *)
Lemma convert_tokens_parens body stack output stack' output' result :
  convert_tokens ("(" :: stack) output body = inl (stack', output') →
  pop_operators ")" stack' output' = ("(" :: stack, result) →
  convert_tokens stack output ("(" :: body ++ [")"]) = inl (stack, result).
Proof.
  intros Hbody Hpop. cbn [convert_tokens]. unfold convert_token at 1. simpl.
  rewrite convert_tokens_app, Hbody. cbn [convert_tokens].
  unfold convert_token. simpl. rewrite pop_to_paren_operators, Hpop.
  reflexivity.
Qed.

Lemma convert_tokens_infix_of e :
  well_formed e = true →
  ∀ level stack output,
    stack_below level stack →
    ∃ stack' output',
      convert_tokens stack output (infix_of level e) = inl (stack', output') ∧
      ∀ token, (precedence token ≤ level)%Z →
        pop_operators token stack' output'
        = pop_operators token stack (output ++ postfix_of e).
Proof.
  induction e as [operand | op lhs IHl rhs IHr | inner IH];
    cbn [well_formed infix_of postfix_of]; intros Hwf level stack output Hbelow.
  - exists stack, (output ++ [operand]). split; [|reflexivity].
    cbn [convert_tokens]. rewrite convert_token_operand by exact Hwf. reflexivity.
  - apply andb_prop in Hwf as [Hwf Hr]. apply andb_prop in Hwf as [Hop Hl].
    destruct (isOperator_not_paren op Hop) as [Hopen _].
    assert (Hbody : ∀ level0 stack0 output0,
      stack_below level0 stack0 → (level0 ≤ precedence op)%Z →
      ∃ stack' output',
        convert_tokens stack0 output0
          (infix_of (precedence op) lhs ++ op :: infix_of (precedence op + 1) rhs)
          = inl (stack', output') ∧
        ∀ token, (precedence token ≤ level0)%Z →
          pop_operators token stack' output'
          = pop_operators token stack0
              (output0 ++ postfix_of lhs ++ postfix_of rhs ++ [op])).
    { intros level0 stack0 output0 Hbelow0 Hle.
      pose proof (stack_below_le _ _ _ Hbelow0 Hle) as Hbelow1.
      destruct (IHl Hl (precedence op) stack0 output0 Hbelow1)
        as (stack1 & output1 & Hrun1 & Hpop1).
      specialize (Hpop1 op (Z.le_refl _)).
      rewrite (pop_operators_below (precedence op) op stack0) in Hpop1
        by (exact Hbelow1 || lia).
      assert (Hbelow2 : stack_below (precedence op + 1) (op :: stack0)).
      { right. lia. }
      destruct (IHr Hr (precedence op + 1)%Z (op :: stack0)
                  (output0 ++ postfix_of lhs) Hbelow2)
        as (stack2 & output2 & Hrun2 & Hpop2).
      exists stack2, output2. split.
      - rewrite convert_tokens_app, Hrun1. cbn [convert_tokens].
        rewrite convert_token_operator, Hpop1 by exact Hop. exact Hrun2.
      - intros token Htoken. rewrite Hpop2 by lia.
        rewrite pop_operators_yield by (exact Hopen || lia).
        rewrite <- !app_assoc. reflexivity. }
    destruct (Z.ltb_spec (precedence op) level) as [Hparen|Hbare].
    + destruct (Hbody 0%Z ("(" :: stack) output) as (stack' & output' & Hrun & Hpop).
      { left. reflexivity. }
      { apply isOperator_precedence in Hop. lia. }
      exists stack, (output ++ postfix_of lhs ++ postfix_of rhs ++ [op]).
      split; [|reflexivity].
      eapply convert_tokens_parens; [exact Hrun|].
      rewrite Hpop by reflexivity. reflexivity.
    + apply Hbody; [exact Hbelow | exact Hbare].
  - destruct (IH Hwf 0%Z ("(" :: stack) output) as (stack' & output' & Hrun & Hpop).
    { left. reflexivity. }
    exists stack, (output ++ postfix_of inner). split; [|reflexivity].
    eapply convert_tokens_parens; [exact Hrun|].
    rewrite Hpop by reflexivity. reflexivity.
Qed.

(** The final loop empties a stack that the loop of [")"] would empty. *)
Lemma convert_flush_pop stack output result :
  pop_to_paren stack output = ([], result) →
  convert_flush stack output = inl ([], result).
Proof.
  revert output. induction stack as [|top stack IH]; cbn; intros output Hpop.
  - congruence.
  - destruct (String.eqb top "("); simpl in Hpop; [discriminate | auto].
Qed.

Lemma convert_run_infix_of e :
  well_formed e = true → convert_run (infix_of 0 e) = inl ([], postfix_of e).
Proof.
  intros Hwf.
  destruct (convert_tokens_infix_of e Hwf 0%Z [] [] I)
    as (stack & output & Hrun & Hpop).
  specialize (Hpop ")" (Z.le_refl _)). rewrite <- pop_to_paren_operators in Hpop.
  unfold convert_run. rewrite Hrun.
  apply convert_flush_pop. exact Hpop.
Qed.

(** X3: [convertToPostfix] is a correct shunting yard.  Given the infix
    notation of a well-formed expression, in which "*" and "/" bind tighter
    than "+" and "-", operators of one priority group to the left and
    parentheses (the necessary ones and any more) override both, it returns
    the postfix notation of that expression and no error. *)
Theorem convertToPostfix_infix_of (e : expr) :
  well_formed e = true →
  convertToPostfix (infix_of 0 e) = (postfix_of e, None).
Proof.
  intros Hwf. unfold convertToPostfix.
  rewrite convert_run_infix_of by exact Hwf. reflexivity.
Qed.

Lemma convertToPostfix_infix_of_witness :
  well_formed
    (Binary "-" (Binary "-" (Operand "8") (Binary "*" (Operand "4") (Operand "2")))
       (Paren (Binary "-" (Operand "3") (Operand "1")))) = true ∧
  infix_of 0
    (Binary "-" (Binary "-" (Operand "8") (Binary "*" (Operand "4") (Operand "2")))
       (Paren (Binary "-" (Operand "3") (Operand "1"))))
    = Calc_tokens "8-4*2-(3-1)" ∧
  convertToPostfix (Calc_tokens "8-4*2-(3-1)")
    = (["8"; "4"; "2"; "*"; "-"; "3"; "1"; "-"; "-"], None).
Proof.
  split; [reflexivity|]. split; [reflexivity|].
  apply (convertToPostfix_infix_of
    (Binary "-" (Binary "-" (Operand "8") (Binary "*" (Operand "4") (Operand "2")))
       (Paren (Binary "-" (Operand "3") (Operand "1"))))).
  reflexivity.
Defined.

(** ** The value that [Calc] returns *)

(** X4: when the tokens of an expression of 3 bytes or more are the infix
    notation of a well-formed expression tree, [Calc] returns the value of
    that tree under the usual reading (priorities, grouping to the left,
    parentheses) with a [nil] error, or 0 with the first error of its
    evaluation from left to right. *)
Theorem Calc_value_of_expression
    (ParseFloat : string → option float) (expression : string) (e : expr) :
  well_formed e = true →
  Calc_tokens expression = infix_of 0 e →
  3 ≤ String.length expression →
  Calc ParseFloat expression = returned (eval ParseFloat e).
Proof.
  intros Hwf Htokens Hlong.
  rewrite Calc_long_expression by exact Hlong.
  rewrite Htokens. unfold convertToPostfix.
  rewrite convert_run_infix_of by exact Hwf.
  unfold calculate.
  rewrite <- (app_nil_r (postfix_of e)), calculate_tokens_postfix_of by exact Hwf.
  destruct (eval ParseFloat e); reflexivity.
Qed.

Lemma Calc_value_of_expression_witness :
  well_formed
    (Binary "-" (Binary "*" (Operand "2") (Binary "+" (Operand "3") (Operand "4")))
       (Binary "/" (Operand "9") (Operand "3"))) = true ∧
  Calc_tokens "2 * (3 + 4) - 9 / 3"
    = infix_of 0
        (Binary "-" (Binary "*" (Operand "2") (Binary "+" (Operand "3") (Operand "4")))
           (Binary "/" (Operand "9") (Operand "3"))) ∧
  3 ≤ String.length "2 * (3 + 4) - 9 / 3" ∧
  Calc strconv.ParseFloat "2 * (3 + 4) - 9 / 3" = (11%float, None).
Proof.
  split; [reflexivity|]. split; [reflexivity|]. split; [simpl; lia|].
  apply (Calc_value_of_expression strconv.ParseFloat "2 * (3 + 4) - 9 / 3"
    (Binary "-" (Binary "*" (Operand "2") (Binary "+" (Operand "3") (Operand "4")))
       (Binary "/" (Operand "9") (Operand "3"))));
    [reflexivity | reflexivity | simpl; lia].
Defined.

(** ** What the conversion does with the tokens *)

Lemma filter_operators_id (tokens : list string) :
  Forall (λ token, isOperator token = true) tokens →
  filter (λ token, isOperator token = true) tokens = tokens ∧
  filter (λ token, is_operand token = true) tokens = [].
Proof.
  induction 1 as [|token tokens Hop _ [IHop IHoperand]]; [split; reflexivity|].
  split.
  - rewrite filter_cons_True by exact Hop. rewrite IHop. reflexivity.
  - rewrite filter_cons_False; [exact IHoperand|].
    rewrite is_operand_spec. intros (_ & _ & Hnot). congruence.
Qed.

(** The loop of the [")"] branch moves operators, and only operators, from
    the top of the stack to the end of the output. *)
Lemma pop_to_paren_split stack output :
  holds_operators stack →
  ∃ moved,
    stack = moved ++ (pop_to_paren stack output).1 ∧
    (pop_to_paren stack output).2 = output ++ moved ∧
    Forall (λ token, isOperator token = true) moved.
Proof.
  intros Hstack. revert output.
  induction Hstack as [|top stack Htop _ IH]; intros output; cbn [pop_to_paren].
  - exists []. cbn. rewrite !app_nil_r. auto.
  - destruct (String.eqb_spec top "(") as [->|Hne]; cbn [negb].
    + exists []. cbn. rewrite !app_nil_r. auto.
    + destruct Htop as [?|Hop]; [contradiction|].
      destruct (IH (output ++ [top])) as (moved & Hsplit & Hout & Hops).
      exists (top :: moved). rewrite Hout, <- app_assoc. cbn [app].
      split; [congruence|]. split; [reflexivity|]. constructor; assumption.
Qed.

(** So does the loop of the operator branch. *)
Lemma pop_operators_split token stack output :
  holds_operators stack →
  ∃ moved,
    stack = moved ++ (pop_operators token stack output).1 ∧
    (pop_operators token stack output).2 = output ++ moved ∧
    Forall (λ token, isOperator token = true) moved.
Proof.
  intros Hstack. revert output.
  induction Hstack as [|top stack Htop _ IH]; intros output; cbn [pop_operators].
  - exists []. cbn. rewrite !app_nil_r. auto.
  - destruct (negb (String.eqb top "(") && (precedence token <=? precedence top)%Z)
      eqn:Hpop.
    + apply andb_prop in Hpop as [Hne _].
      destruct Htop as [->|Hop]; [discriminate|].
      destruct (IH (output ++ [top])) as (moved & Hsplit & Hout & Hops).
      exists (top :: moved). rewrite Hout, <- app_assoc. cbn [app].
      split; [congruence|]. split; [reflexivity|]. constructor; assumption.
    + exists []. cbn. rewrite !app_nil_r. auto.
Qed.

(** The final loop, when it succeeds, moves the whole stack, which then
    holds operators only. *)
Lemma convert_flush_split stack output stack' output' :
  holds_operators stack →
  convert_flush stack output = inl (stack', output') →
  stack' = [] ∧ output' = output ++ stack ∧
  Forall (λ token, isOperator token = true) stack.
Proof.
  intros Hstack. revert output.
  induction Hstack as [|top stack Htop _ IH]; intros output; cbn [convert_flush].
  - intros [= <- <-]. rewrite app_nil_r. auto.
  - destruct (String.eqb_spec top "(") as [->|Hne]; [discriminate|].
    destruct Htop as [?|Hop]; [contradiction|].
    intros Hflush. destruct (IH _ Hflush) as (-> & -> & Hops).
    rewrite <- app_assoc. auto.
Qed.

(** One token of the conversion: the stack keeps holding operators and
    ["("] only, no token other than a parenthesis is lost or invented, and
    the operands go to the output in the order of their arrival. *)
Lemma convert_token_tokens stack output token stack' output' :
  holds_operators stack →
  convert_token stack output token = inl (stack', output') →
  holds_operators stack' ∧
  output' ++ filter (λ t, isOperator t = true) stack'
    ≡ₚ (output ++ filter (λ t, isOperator t = true) stack)
       ++ filter (λ t, not_paren t = true) [token] ∧
  filter (λ t, is_operand t = true) output'
    = filter (λ t, is_operand t = true) output
      ++ filter (λ t, is_operand t = true) [token].
Proof.
  intros Hstack. unfold convert_token.
  destruct (String.eqb_spec token "(") as [->|Hopen].
  { intros [= <- <-]. split; [constructor; auto|].
    rewrite !app_nil_r. split; reflexivity. }
  destruct (String.eqb_spec token ")") as [->|Hclose].
  { destruct (pop_to_paren_split stack output Hstack) as (moved & Hsplit & Hout & Hops).
    destruct (pop_to_paren stack output) as [[|top rest] out]; [discriminate|].
    cbn [fst snd] in *. destruct (String.eqb_spec top "(") as [->|]; [|discriminate].
    intros [= <- <-]. subst out.
    destruct (filter_operators_id moved Hops) as [Hid Hnone].
    assert (Hrest : holds_operators rest).
    { unfold holds_operators in Hstack. rewrite Hsplit in Hstack.
      apply Forall_app in Hstack as [_ Hstack]. inversion Hstack; assumption. }
    split; [exact Hrest|]. split.
    - rewrite Hsplit, filter_app, Hid, app_nil_r, <- app_assoc.
      reflexivity.
    - rewrite filter_app, Hnone, !app_nil_r. reflexivity. }
  destruct (isOperator token) eqn:Hop.
  - destruct (pop_operators_split token stack output Hstack)
      as (moved & Hsplit & Hout & Hops).
    destruct (pop_operators token stack output) as [rest out].
    cbn [fst snd] in *. intros [= <- <-]. subst out.
    destruct (filter_operators_id moved Hops) as [Hid Hnone].
    assert (Hrest : holds_operators rest).
    { unfold holds_operators in Hstack. rewrite Hsplit in Hstack.
      apply Forall_app in Hstack as [_ Hstack]. exact Hstack. }
    split; [constructor; auto|]. split.
    + rewrite Hsplit, filter_app, Hid.
      rewrite filter_cons_True by exact Hop.
      rewrite (filter_cons_True _ token [])
        by (unfold not_paren;
            destruct (String.eqb_spec token "("), (String.eqb_spec token ")");
            simpl; congruence).
      rewrite filter_nil, <- !app_assoc.
      apply Permutation_app_head, Permutation_app_head.
      apply Permutation_cons_append.
    + rewrite filter_app, Hnone, app_nil_r.
      rewrite (filter_cons_False _ token []); [rewrite app_nil_r; reflexivity|].
      rewrite is_operand_spec. intros (_ & _ & Hnot). congruence.
  - intros [= <- <-]. split; [exact Hstack|].
    assert (Hoperand : is_operand token = true).
    { apply is_operand_spec. auto. }
    split.
    + rewrite (filter_cons_True _ token [])
        by (unfold not_paren;
            destruct (String.eqb_spec token "("), (String.eqb_spec token ")");
            simpl; congruence).
      rewrite filter_nil, <- !app_assoc.
      apply Permutation_app_head, Permutation_app_comm.
    + rewrite filter_app. reflexivity.
Qed.

Lemma convert_tokens_tokens infix stack output stack' output' :
  holds_operators stack →
  convert_tokens stack output infix = inl (stack', output') →
  holds_operators stack' ∧
  output' ++ filter (λ t, isOperator t = true) stack'
    ≡ₚ (output ++ filter (λ t, isOperator t = true) stack)
       ++ filter (λ t, not_paren t = true) infix ∧
  filter (λ t, is_operand t = true) output'
    = filter (λ t, is_operand t = true) output
      ++ filter (λ t, is_operand t = true) infix.
Proof.
  revert stack output.
  induction infix as [|token infix IH]; intros stack output Hstack;
    cbn [convert_tokens].
  - intros [= <- <-]. rewrite !filter_nil, !app_nil_r. auto.
  - destruct (convert_token stack output token) as [[stack1 output1]|err] eqn:Htoken;
      [|discriminate].
    intros Hrun.
    destruct (convert_token_tokens _ _ _ _ _ Hstack Htoken) as (Hs1 & Hperm1 & Hord1).
    destruct (IH _ _ Hs1 Hrun) as (Hs2 & Hperm2 & Hord2).
    split; [exact Hs2|]. split.
    + rewrite Hperm2, Hperm1, <- !app_assoc.
      change (token :: infix) with ([token] ++ infix). rewrite filter_app.
      reflexivity.
    + rewrite Hord2, Hord1, <- app_assoc.
      change (token :: infix) with ([token] ++ infix). rewrite filter_app.
      reflexivity.
Qed.

(** What a successful conversion returns, in terms of its input. *)
Lemma convertToPostfix_tokens infix postfix :
  convertToPostfix infix = (postfix, None) →
  postfix ≡ₚ filter (λ t, not_paren t = true) infix ∧
  filter (λ t, is_operand t = true) postfix
    = filter (λ t, is_operand t = true) infix.
Proof.
  unfold convertToPostfix, convert_run.
  destruct (convert_tokens [] [] infix) as [[stack output]|err] eqn:Hrun;
    [|discriminate].
  destruct (convert_tokens_tokens infix [] [] stack output (Forall_nil_2 _) Hrun)
    as (Hstack & Hperm & Hord).
  destruct (convert_flush stack output) as [[stack' output']|err] eqn:Hflush;
    [|discriminate].
  intros [= <-].
  destruct (convert_flush_split _ _ _ _ Hstack Hflush) as (_ & -> & Hops).
  destruct (filter_operators_id stack Hops) as [Hid Hnone].
  rewrite Hid in Hperm. split.
  - rewrite Hperm. reflexivity.
  - rewrite filter_app, Hnone, app_nil_r. exact Hord.
Qed.

(** X5: the parentheses are all that [convertToPostfix] checks: it returns
    a [nil] error exactly on the token lists whose parentheses match,
    wherever their operators and operands stand, and [ErrExpressionSyntax]
    with the [nil] slice on all others. *)
Theorem convertToPostfix_succeeds_iff_matched (infix : list string) :
  (parens_matched infix = true ↔ ∃ postfix, convertToPostfix infix = (postfix, None)) ∧
  (parens_matched infix = false ↔
     convertToPostfix infix = ([], Some ErrExpressionSyntax)).
Proof.
  unfold convertToPostfix. pose proof (convert_run_matched infix) as Hrun.
  destruct (convert_run infix) as [[stack output]|err].
  - destruct Hrun as [_ ->]. split; split; try discriminate; eauto.
  - destruct Hrun as [-> ->]. split; split; try discriminate; auto.
    intros [postfix Heq]. discriminate.
Qed.

(** X6: a successful conversion neither loses nor invents a token: the
    postfix sequence is a rearrangement of the tokens of the input other
    than the parentheses, so it holds no parenthesis and has as many
    tokens as the input has outside its parentheses. *)
Theorem convertToPostfix_rearranges (infix postfix : list string) :
  convertToPostfix infix = (postfix, None) →
  postfix ≡ₚ filter (λ token, not_paren token = true) infix ∧
  ("(" ∉ postfix) ∧ (")" ∉ postfix) ∧
  length postfix = length (filter (λ token, not_paren token = true) infix).
Proof.
  intros Hconv. destruct (convertToPostfix_tokens _ _ Hconv) as [Hperm _].
  split; [exact Hperm|]. rewrite Hperm.
  split; [|split; [|reflexivity]];
    rewrite list_elem_of_filter; intros [Hnot _]; discriminate Hnot.
Qed.

Lemma convertToPostfix_rearranges_witness :
  convertToPostfix (Calc_tokens "(1+2)*3") = (["1"; "2"; "+"; "3"; "*"], None) ∧
  ["1"; "2"; "+"; "3"; "*"]
    ≡ₚ filter (λ token, not_paren token = true) (Calc_tokens "(1+2)*3") ∧
  length ["1"; "2"; "+"; "3"; "*"] = 5.
Proof.
  split; [reflexivity|].
  destruct (convertToPostfix_rearranges (Calc_tokens "(1+2)*3")
              ["1"; "2"; "+"; "3"; "*"] eq_refl) as (Hperm & _ & _ & Hlen).
  split; [exact Hperm | reflexivity].
Defined.

(** X7: the conversion moves operators only: in the postfix sequence the
    operands stand in the order they have in the input. *)
Theorem convertToPostfix_keeps_operand_order (infix postfix : list string) :
  convertToPostfix infix = (postfix, None) →
  filter (λ token, is_operand token = true) postfix
  = filter (λ token, is_operand token = true) infix.
Proof.
  intros Hconv. destruct (convertToPostfix_tokens _ _ Hconv) as [_ Hord].
  exact Hord.
Qed.

Lemma convertToPostfix_keeps_operand_order_witness :
  convertToPostfix (Calc_tokens "8-4*2-(3-1)")
    = (["8"; "4"; "2"; "*"; "-"; "3"; "1"; "-"; "-"], None) ∧
  filter (λ token, is_operand token = true)
    ["8"; "4"; "2"; "*"; "-"; "3"; "1"; "-"; "-"]
  = filter (λ token, is_operand token = true) (Calc_tokens "8-4*2-(3-1)").
Proof.
  split; [reflexivity|].
  apply (convertToPostfix_keeps_operand_order (Calc_tokens "8-4*2-(3-1)")).
  reflexivity.
Defined.

(** ** Operands and operators in numbers *)

Lemma calculate_token_size ParseFloat stack token stack' :
  calculate_token ParseFloat stack token = inl stack' →
  if isOperator token then length stack = S (length stack')
  else length stack' = S (length stack).
Proof.
  unfold calculate_token. destruct (isOperator token).
  - destruct stack as [|b [|a stack]]; try discriminate.
    repeat match goal with
           | |- context [if ?test then _ else _] => destruct test
           end; intros [= <-]; reflexivity.
  - destruct (ParseFloat token); intros [= <-]. reflexivity.
Qed.

Lemma calculate_tokens_height ParseFloat postfix stack stack' :
  calculate_tokens ParseFloat stack postfix = inl stack' →
  length stack' + length (filter (λ token, isOperator token = true) postfix)
  = length stack + length (filter (λ token, isOperator token = false) postfix).
Proof.
  revert stack. induction postfix as [|token postfix IH]; intros stack;
    cbn [calculate_tokens].
  - intros [= <-]. rewrite !filter_nil. reflexivity.
  - destruct (calculate_token ParseFloat stack token) as [stack1|ret] eqn:Htoken;
      [|discriminate].
    intros Hrun. specialize (IH _ Hrun).
    apply calculate_token_size in Htoken.
    destruct (isOperator token) eqn:Hop.
    + rewrite (filter_cons_True (λ t, isOperator t = true) token postfix Hop).
      rewrite (filter_cons_False (λ t, isOperator t = false) token postfix)
        by congruence.
      cbn [length]. lia.
    + rewrite (filter_cons_True (λ t, isOperator t = false) token postfix Hop).
      rewrite (filter_cons_False (λ t, isOperator t = true) token postfix)
        by congruence.
      cbn [length]. lia.
Qed.

Lemma calculate_value_counts ParseFloat postfix value :
  calculate ParseFloat postfix = (value, None) →
  length (filter (λ token, isOperator token = false) postfix)
  = S (length (filter (λ token, isOperator token = true) postfix)).
Proof.
  intros Hcalc.
  destruct (calculate_cases ParseFloat postfix)
    as [(v & Hrun & _) | [(stack & _ & _ & Heq) | (e & _ & _ & Heq)]];
    [|congruence..].
  apply calculate_tokens_height in Hrun. cbn [length] in Hrun. lia.
Qed.

(** X8: every operand that [calculate] consumes adds one value to the
    stack and every operator removes one: when the loop ends without an
    error, the height of the stack plus the number of operators of the
    sequence is the starting height plus the number of its other tokens.
    Hence [calculate] returns a value only for a sequence with one operand
    more than operators. *)
Theorem calculate_stack_height
    (ParseFloat : string → option float) (postfix : list string)
    (stack stack' : list float) :
  calculate_tokens ParseFloat stack postfix = inl stack' →
  length stack' + length (filter (λ token, isOperator token = true) postfix)
  = length stack + length (filter (λ token, isOperator token = false) postfix) ∧
  (∀ value, calculate ParseFloat postfix = (value, None) →
     length (filter (λ token, isOperator token = false) postfix)
     = S (length (filter (λ token, isOperator token = true) postfix))).
Proof.
  intros Hrun. split; [exact (calculate_tokens_height ParseFloat _ _ _ Hrun)|].
  intros value. apply (calculate_value_counts ParseFloat).
Qed.

Lemma calculate_stack_height_witness :
  calculate_tokens strconv.ParseFloat [7%float] ["1"; "2"; "+"; "3"]
    = inl [3%float; 3%float; 7%float] ∧
  length [3%float; 3%float; 7%float]
    + length (filter (λ token, isOperator token = true) ["1"; "2"; "+"; "3"])
  = length [7%float]
    + length (filter (λ token, isOperator token = false) ["1"; "2"; "+"; "3"]).
Proof.
  split; [reflexivity|].
  apply (calculate_stack_height strconv.ParseFloat ["1"; "2"; "+"; "3"]
           [7%float] [3%float; 3%float; 7%float]).
  reflexivity.
Defined.

(** The operators and the operands of a successful conversion are those of
    its input, in numbers. *)
Lemma convertToPostfix_counts infix postfix :
  convertToPostfix infix = (postfix, None) →
  length (filter (λ token, isOperator token = true) postfix)
    = length (filter (λ token, isOperator token = true) infix) ∧
  length (filter (λ token, isOperator token = false) postfix)
    = length (filter (λ token, is_operand token = true) infix).
Proof.
  intros Hconv. destruct (convertToPostfix_tokens _ _ Hconv) as [Hperm _].
  split; rewrite Hperm.
  - rewrite list_filter_filter_l; [reflexivity|].
    intros token Hop. destruct (isOperator_not_paren token Hop) as [Hopen Hclose].
    unfold not_paren.
    destruct (String.eqb_spec token "("), (String.eqb_spec token ")");
      simpl; congruence.
  - rewrite list_filter_filter. f_equal. apply list_filter_iff.
    intros token. rewrite is_operand_spec. unfold not_paren.
    destruct (String.eqb_spec token "("), (String.eqb_spec token ")"),
      (isOperator token); simpl; split; try tauto; try discriminate;
      intros []; congruence.
Qed.

(** X9: [Calc] returns a value (a [nil] error) only for an expression of 3
    bytes or more whose parentheses match and whose tokens count one
    operand more than operators. *)
Theorem Calc_value_requires
    (ParseFloat : string → option float) (expression : string) (value : float) :
  Calc ParseFloat expression = (value, None) →
  3 ≤ String.length expression ∧
  parens_matched (Calc_tokens expression) = true ∧
  length (filter (λ token, is_operand token = true) (Calc_tokens expression))
  = S (length (filter (λ token, isOperator token = true) (Calc_tokens expression))).
Proof.
  intros Hcalc.
  destruct (Calc_cases ParseFloat expression)
    as [[_ Heq] | [(_ & _ & Heq) |
        (Hlong & postfix & Hconv & [(err & _ & Heq) | (result & Hres & _)])]];
    try congruence.
  split; [exact Hlong|]. split.
  - apply convertToPostfix_matched. rewrite Hconv. reflexivity.
  - destruct (convertToPostfix_counts _ _ Hconv) as [<- <-].
    eapply calculate_value_counts. exact Hres.
Qed.

Lemma Calc_value_requires_witness :
  Calc strconv.ParseFloat "(2+3)*4" = (20%float, None) ∧
  3 ≤ String.length "(2+3)*4" ∧
  parens_matched (Calc_tokens "(2+3)*4") = true ∧
  length (filter (λ token, is_operand token = true) (Calc_tokens "(2+3)*4")) = 3 ∧
  length (filter (λ token, isOperator token = true) (Calc_tokens "(2+3)*4")) = 2.
Proof.
  split; [reflexivity|].
  destruct (Calc_value_requires strconv.ParseFloat "(2+3)*4" 20%float eq_refl)
    as (Hlong & Hmatched & Hcount).
  split; [exact Hlong|]. split; [exact Hmatched|]. split; reflexivity.
Defined.

(** ** Where a division by zero can come from *)

Lemma calculate_tokens_division ParseFloat postfix stack value :
  calculate_tokens ParseFloat stack postfix = inr (value, Some ErrDivisionByZero) →
  "/" ∈ postfix.
Proof.
  revert stack. induction postfix as [|token postfix IH]; intros stack;
    cbn [calculate_tokens]; [discriminate|].
  destruct (calculate_token ParseFloat stack token) as [stack'|ret] eqn:Htoken.
  - intros Hrun. apply elem_of_cons. right. eapply IH. exact Hrun.
  - intros [= ->]. apply calculate_token_division in Htoken as (_ & -> & _).
    apply elem_of_cons. left. reflexivity.
Qed.

(** X10: [Calc] returns [ErrDivisionByZero] only for an expression of 3
    bytes or more with matching parentheses and a "/" among its tokens. *)
Theorem Calc_division_by_zero_requires
    (ParseFloat : string → option float) (expression : string) (value : float) :
  Calc ParseFloat expression = (value, Some ErrDivisionByZero) →
  3 ≤ String.length expression ∧
  parens_matched (Calc_tokens expression) = true ∧
  "/" ∈ Calc_tokens expression.
Proof.
  intros Hcalc.
  destruct (Calc_cases ParseFloat expression)
    as [[_ Heq] | [(_ & _ & Heq) |
        (Hlong & postfix & Hconv & [(err & Herr & Heq) | (result & _ & Heq)])]];
    try congruence.
  assert (err = ErrDivisionByZero) as -> by congruence.
  split; [exact Hlong|]. split.
  - apply convertToPostfix_matched. rewrite Hconv. reflexivity.
  - destruct (convertToPostfix_tokens _ _ Hconv) as [Hperm _].
    assert (Hin : "/" ∈ postfix).
    { unfold calculate in Herr.
      destruct (calculate_tokens ParseFloat [] postfix) as [stack|[v e]] eqn:Hrun.
      - destruct stack as [|? [|? ?]]; discriminate.
      - inversion Herr; subst. eapply calculate_tokens_division. exact Hrun. }
    rewrite Hperm in Hin. apply list_elem_of_filter in Hin as [_ Hin]. exact Hin.
Qed.

Lemma Calc_division_by_zero_requires_witness :
  Calc strconv.ParseFloat "4/(2-2)" = (0%float, Some ErrDivisionByZero) ∧
  3 ≤ String.length "4/(2-2)" ∧
  parens_matched (Calc_tokens "4/(2-2)") = true ∧
  "/" ∈ Calc_tokens "4/(2-2)".
Proof.
  split; [reflexivity|].
  apply (Calc_division_by_zero_requires strconv.ParseFloat "4/(2-2)" 0%float).
  reflexivity.
Defined.

(** ** Expressions of ASCII bytes *)

Lemma first_ascii c : is_ascii c = true → utf8.first (utf8.byte_val c) = None.
Proof.
  unfold is_ascii, utf8.byte_val, utf8.first. intros Hascii.
  apply N.ltb_lt in Hascii.
  destruct (Z.ltb_spec (Z.of_N (N_of_ascii c)) 194); [reflexivity | lia].
Qed.

Lemma explode_ascii s :
  string_forall is_ascii s = true → strings.explode s = bytes_of s.
Proof.
  induction s as [|c s IH]; cbn [string_forall]; intros Hascii.
  - reflexivity.
  - apply andb_prop in Hascii as [Hc Hs]. simp explode.
    assert (Hwidth : utf8.DecodeRuneInString (String c s) = 1).
    { cbn [utf8.DecodeRuneInString]. rewrite first_ascii by exact Hc. reflexivity. }
    rewrite Hwidth. cbn [string_take string_drop Nat.sub].
    rewrite IH by exact Hs. reflexivity.
Qed.

Lemma string_forall_filter (p keep : ascii → bool) s :
  string_forall p s = true → string_forall p (string_filter keep s) = true.
Proof.
  induction s as [|c s IH]; cbn [string_forall string_filter]; [reflexivity|].
  intros Hall. apply andb_prop in Hall as [Hc Hs].
  destruct (keep c); cbn [string_forall]; rewrite ?Hc; auto.
Qed.

(** X11: the tokens of an expression of ASCII bytes are its bytes other
    than the space, each a token of its own, in order: a number of several
    digits is split into its digits. *)
Theorem Calc_tokens_ascii (expression : string) :
  string_forall is_ascii expression = true →
  Calc_tokens expression = bytes_of (strip_spaces expression) ∧
  Forall (λ token, String.length token = 1) (Calc_tokens expression) ∧
  length (Calc_tokens expression) = String.length (strip_spaces expression).
Proof.
  intros Hascii.
  assert (Htokens : Calc_tokens expression = bytes_of (strip_spaces expression)).
  { rewrite Calc_tokens_explode. apply explode_ascii.
    apply string_forall_filter. exact Hascii. }
  rewrite Htokens. unfold bytes_of. split; [reflexivity|]. split.
  - apply Forall_fmap, Forall_true. reflexivity.
  - rewrite length_fmap. generalize (strip_spaces expression) as s.
    induction s as [|c s IH]; simpl; congruence.
Qed.

Lemma Calc_tokens_ascii_witness :
  string_forall is_ascii "12 + 305" = true ∧
  Calc_tokens "12 + 305" = ["1"; "2"; "+"; "3"; "0"; "5"].
Proof.
  split; [reflexivity|].
  destruct (Calc_tokens_ascii "12 + 305" eq_refl) as (Htokens & _ & _).
  exact Htokens.
Defined.

(** ** Expressions without operators *)

Lemma digit_token c :
  is_digit c = true →
  is_operand (String c "") = true ∧
  ∃ value, strconv.ParseFloat (String c "") = Some value.
Proof.
  destruct c as [[] [] [] [] [] [] [] []]; try discriminate;
    intros _; (split; [reflexivity | eexists; reflexivity]).
Qed.

Lemma string_forall_Forall p s :
  string_forall p s = true →
  Forall (λ c, p c = true) (String.list_ascii_of_string s).
Proof.
  induction s as [|c s IH]; cbn [string_forall String.list_ascii_of_string].
  - constructor.
  - intros Hall. apply andb_prop in Hall as [Hc Hs]. constructor; auto.
Qed.

(** Operands pass through the conversion as they come. *)
Lemma convert_tokens_operands infix stack output :
  Forall (λ token, is_operand token = true) infix →
  convert_tokens stack output infix = inl (stack, output ++ infix).
Proof.
  intros Hall. revert output.
  induction Hall as [|token infix Htoken _ IH]; intros output;
    cbn [convert_tokens].
  - rewrite app_nil_r. reflexivity.
  - rewrite convert_token_operand by exact Htoken.
    rewrite IH, <- app_assoc. reflexivity.
Qed.

(** Operands that parse are pushed one after the other. *)
Lemma calculate_tokens_operands ParseFloat postfix stack :
  Forall (λ token, isOperator token = false ∧
                   ∃ value, ParseFloat token = Some value) postfix →
  ∃ values, length values = length postfix ∧
    calculate_tokens ParseFloat stack postfix = inl (values ++ stack).
Proof.
  intros Hall. revert stack.
  induction Hall as [|token postfix [Hop [value Hparse]] _ IH]; intros stack;
    cbn [calculate_tokens].
  - exists []. auto.
  - rewrite calculate_token_operand, Hparse by exact Hop.
    destruct (IH (value :: stack)) as (values & Hlen & ->).
    exists (values ++ [value]). rewrite length_app, <- app_assoc.
    cbn [length app]. split; [lia | reflexivity].
Qed.

(** X12: an expression of 3 bytes or more made of decimal digits and
    spaces only has no operator to combine its digits: with exactly one
    digit [Calc] returns the value of that digit, and with none or with
    several, a number of several digits included, it returns
    [ErrInvalidExpression]. *)
Theorem Calc_digits_and_spaces (expression : string) :
  3 ≤ String.length expression →
  string_forall (λ c, is_digit c || is_space c) expression = true →
  Calc strconv.ParseFloat expression =
  match Calc_tokens expression with
  | [digit] =>
      match strconv.ParseFloat digit with
      | Some value => (value, None)
      | None => (0%float, Some ErrExpressionSyntax)
      end
  | _ => (0%float, Some ErrInvalidExpression)
  end ∧
  Forall (λ token, ∃ value, strconv.ParseFloat token = Some value)
    (Calc_tokens expression).
Proof.
  intros Hlong Hall.
  assert (Hdigits : string_forall is_digit (strip_spaces expression) = true).
  { clear Hlong. unfold strip_spaces.
    induction expression as [|c s IH]; cbn [string_forall string_filter] in *;
      [reflexivity|].
    apply andb_prop in Hall as [Hc Hs]. specialize (IH Hs).
    destruct (is_space c); cbn [negb string_forall]; [exact IH|].
    rewrite orb_false_r in Hc. rewrite Hc, IH. reflexivity. }
  assert (Hascii : string_forall is_ascii (strip_spaces expression) = true).
  { revert Hdigits. generalize (strip_spaces expression) as s.
    induction s as [|c s IH]; cbn [string_forall]; [reflexivity|].
    intros Hd. apply andb_prop in Hd as [Hc Hs]. rewrite (IH Hs), andb_true_r.
    unfold is_digit in Hc. unfold is_ascii.
    apply andb_prop in Hc as [_ Hc]. apply N.leb_le in Hc. apply N.ltb_lt. lia. }
  assert (Htokens : Forall (λ token, is_operand token = true ∧
                      ∃ value, strconv.ParseFloat token = Some value)
                      (Calc_tokens expression)).
  { rewrite Calc_tokens_explode, explode_ascii by exact Hascii.
    unfold bytes_of. apply Forall_fmap.
    eapply Forall_impl; [apply string_forall_Forall; exact Hdigits|].
    intros c Hc. apply digit_token. exact Hc. }
  split; [|eapply Forall_impl; [exact Htokens | intros ? [_ ?]; assumption]].
  rewrite Calc_long_expression by exact Hlong.
  unfold convertToPostfix, convert_run.
  rewrite convert_tokens_operands
    by (eapply Forall_impl; [exact Htokens | intros ? [? _]; assumption]).
  cbn [app convert_flush].
  destruct (calculate_tokens_operands strconv.ParseFloat (Calc_tokens expression) [])
    as (values & Hlen & Hrun).
  { eapply Forall_impl; [exact Htokens|].
    intros token [Hoperand Hparse]. split; [|exact Hparse].
    apply is_operand_spec in Hoperand. tauto. }
  unfold calculate. rewrite Hrun, app_nil_r.
  destruct (Calc_tokens expression) as [|digit [|second tokens]] eqn:Heq.
  - destruct values; [reflexivity | discriminate].
  - destruct values as [|value [|? ?]]; try discriminate.
    cbn [calculate_tokens] in Hrun.
    inversion Htokens as [|? ? [Hoperand [v Hparse]] _]; subst.
    apply is_operand_spec in Hoperand as (_ & _ & Hop).
    rewrite calculate_token_operand, Hparse in Hrun by exact Hop.
    inversion Hrun; subst. rewrite Hparse. reflexivity.
  - destruct values as [|? [|? ?]]; try discriminate. reflexivity.
Qed.

Lemma Calc_digits_and_spaces_witness :
  3 ≤ String.length "1234" ∧
  string_forall (λ c, is_digit c || is_space c) "1234" = true ∧
  Calc strconv.ParseFloat "1234" = (0%float, Some ErrInvalidExpression) ∧
  3 ≤ String.length "  7 " ∧
  string_forall (λ c, is_digit c || is_space c) "  7 " = true ∧
  Calc strconv.ParseFloat "  7 " = (7%float, None).
Proof.
  split; [simpl; lia|]. split; [reflexivity|].
  split; [apply (Calc_digits_and_spaces "1234"); [simpl; lia | reflexivity]|].
  split; [simpl; lia|]. split; [reflexivity|].
  apply (Calc_digits_and_spaces "  7 "); [simpl; lia | reflexivity].
Defined.

(** ** Spaces *)

Lemma string_length_append s t :
  String.length (s +:+ t) = String.length s + String.length t.
Proof.
  induction s as [|c s IH]; [reflexivity|].
  rewrite append_String. cbn [String.length]. rewrite IH. reflexivity.
Qed.

(** X13: a space added anywhere to an expression of 3 bytes or more does
    not change what [Calc] returns. *)
Theorem Calc_ignores_spaces
    (ParseFloat : string → option float) (before after : string) :
  3 ≤ String.length (before +:+ after) →
  Calc ParseFloat (before +:+ " " +:+ after) = Calc ParseFloat (before +:+ after).
Proof.
  intros Hlong.
  rewrite !Calc_long_expression;
    [| exact Hlong
     | rewrite !string_length_append in *; cbn [String.length] in *; lia].
  rewrite !Calc_tokens_explode. unfold strip_spaces.
  rewrite !string_filter_app. reflexivity.
Qed.

Lemma Calc_ignores_spaces_witness :
  3 ≤ String.length ("2*" +:+ "3-4") ∧
  Calc strconv.ParseFloat ("2*" +:+ " " +:+ "3-4")
    = Calc strconv.ParseFloat ("2*" +:+ "3-4").
Proof.
  split; [simpl; lia|].
  apply (Calc_ignores_spaces strconv.ParseFloat "2*" "3-4"). simpl; lia.
Defined.

(** ** Which error for which expression *)

(** X14: an expression whose parentheses do not match makes [Calc] return
    [ErrExpressionSyntax], whatever its length and whatever else it holds:
    the conversion fails before any value is computed. *)
Theorem Calc_unmatched_parens
    (ParseFloat : string → option float) (expression : string) :
  parens_matched (Calc_tokens expression) = false →
  Calc ParseFloat expression = (0%float, Some ErrExpressionSyntax).
Proof.
  intros Hbad.
  destruct (Calc_cases ParseFloat expression)
    as [[_ Heq] | [(_ & _ & Heq) | (_ & postfix & Hconv & _)]];
    [exact Heq | exact Heq |].
  assert (Hgood : parens_matched (Calc_tokens expression) = true).
  { apply convertToPostfix_matched. rewrite Hconv. reflexivity. }
  congruence.
Qed.

Lemma Calc_unmatched_parens_witness :
  parens_matched (Calc_tokens "(1/0") = false ∧
  Calc strconv.ParseFloat "(1/0" = (0%float, Some ErrExpressionSyntax).
Proof.
  split; [reflexivity|].
  apply (Calc_unmatched_parens strconv.ParseFloat "(1/0"). reflexivity.
Defined.

(** X15: [Calc] returns [ErrInvalidExpression] only for an expression of 3
    bytes or more whose parentheses match and whose operands are not one
    more than its operators. *)
Theorem Calc_invalid_expression_requires
    (ParseFloat : string → option float) (expression : string) (value : float) :
  Calc ParseFloat expression = (value, Some ErrInvalidExpression) →
  3 ≤ String.length expression ∧
  parens_matched (Calc_tokens expression) = true ∧
  length (filter (λ token, is_operand token = true) (Calc_tokens expression))
  ≠ S (length (filter (λ token, isOperator token = true) (Calc_tokens expression))).
Proof.
  intros Hcalc.
  destruct (Calc_cases ParseFloat expression)
    as [[_ Heq] | [(_ & _ & Heq) |
        (Hlong & postfix & Hconv & [(err & Herr & Heq) | (result & _ & Heq)])]];
    try congruence.
  assert (err = ErrInvalidExpression) as -> by congruence.
  split; [exact Hlong|]. split.
  - apply convertToPostfix_matched. rewrite Hconv. reflexivity.
  - destruct (convertToPostfix_counts _ _ Hconv) as [<- <-].
    destruct (calculate_cases ParseFloat postfix)
      as [(v & _ & Hv) | [(stack & Hrun & Hsize & _) | (e & _ & [-> | ->] & He)]];
      try congruence.
    apply calculate_tokens_height in Hrun. cbn [length] in Hrun. lia.
Qed.

Lemma Calc_invalid_expression_requires_witness :
  Calc strconv.ParseFloat "1+23" = (0%float, Some ErrInvalidExpression) ∧
  length (filter (λ token, is_operand token = true) (Calc_tokens "1+23")) = 3 ∧
  length (filter (λ token, isOperator token = true) (Calc_tokens "1+23")) = 1 ∧
  3 ≤ String.length "1+23" ∧
  parens_matched (Calc_tokens "1+23") = true.
Proof.
  split; [reflexivity|]. split; [reflexivity|]. split; [reflexivity|].
  destruct (Calc_invalid_expression_requires strconv.ParseFloat "1+23" 0%float eq_refl)
    as (Hlong & Hmatched & _).
  split; [exact Hlong | exact Hmatched].
Defined.

Lemma eval_digit_operands e :
  well_formed e = true → digit_operands e = true →
  (∃ value, eval strconv.ParseFloat e = inl value) ∨
  eval strconv.ParseFloat e = inr ErrDivisionByZero.
Proof.
  induction e as [token | op lhs IHl rhs IHr | inner IH];
    cbn [well_formed digit_operands eval]; intros Hwf Hdigits.
  - destruct token as [|c [|? ?]]; try discriminate.
    destruct (digit_token c Hdigits) as [_ [value ->]]. eauto.
  - apply andb_prop in Hwf as [Hwf Hr]. apply andb_prop in Hwf as [Hop Hl].
    apply andb_prop in Hdigits as [Hdl Hdr].
    destruct (IHl Hl Hdl) as [[a ->] | ->]; [|auto].
    destruct (IHr Hr Hdr) as [[b ->] | ->]; [|auto].
    apply isOperator_spec in Hop as [-> | [-> | [-> | ->]]];
      unfold apply_operator; simpl; eauto.
    destruct (b =? 0)%float; eauto.
  - auto.
Qed.

(** X16: when the tokens of an expression of 3 bytes or more are the infix
    notation of a well-formed expression tree whose operands are single
    digits, [Calc] returns a value, or [ErrDivisionByZero]; it returns
    neither [ErrExpressionSyntax] nor [ErrInvalidExpression]. *)
Theorem Calc_well_formed_digits (expression : string) (e : expr) :
  well_formed e = true → digit_operands e = true →
  Calc_tokens expression = infix_of 0 e →
  3 ≤ String.length expression →
  (∃ value, eval strconv.ParseFloat e = inl value ∧
            Calc strconv.ParseFloat expression = (value, None)) ∨
  (eval strconv.ParseFloat e = inr ErrDivisionByZero ∧
   Calc strconv.ParseFloat expression = (0%float, Some ErrDivisionByZero)).
Proof.
  intros Hwf Hdigits Htokens Hlong.
  assert (Hcalc : Calc strconv.ParseFloat expression
                  = returned (eval strconv.ParseFloat e)).
  { rewrite Calc_long_expression by exact Hlong.
    rewrite Htokens. unfold convertToPostfix.
    rewrite convert_run_infix_of by exact Hwf.
    unfold calculate.
    rewrite <- (app_nil_r (postfix_of e)), calculate_tokens_postfix_of by exact Hwf.
    destruct (eval strconv.ParseFloat e); reflexivity. }
  rewrite Hcalc.
  destruct (eval_digit_operands e Hwf Hdigits) as [[value ->] | ->]; eauto.
Qed.

Lemma Calc_well_formed_digits_witness :
  well_formed (Binary "/" (Operand "6") (Paren (Binary "-" (Operand "4") (Operand "1"))))
    = true ∧
  digit_operands (Binary "/" (Operand "6") (Paren (Binary "-" (Operand "4") (Operand "1"))))
    = true ∧
  Calc_tokens "6/(4-1)"
    = infix_of 0 (Binary "/" (Operand "6") (Paren (Binary "-" (Operand "4") (Operand "1")))) ∧
  3 ≤ String.length "6/(4-1)" ∧
  Calc strconv.ParseFloat "6/(4-1)" = (2%float, None).
Proof.
  split; [reflexivity|]. split; [reflexivity|]. split; [reflexivity|].
  split; [simpl; lia|].
  destruct (Calc_well_formed_digits "6/(4-1)"
    (Binary "/" (Operand "6") (Paren (Binary "-" (Operand "4") (Operand "1"))))
    eq_refl eq_refl eq_refl) as [(value & Heval & Hcalc) | [Heval _]].
  - simpl; lia.
  - rewrite Hcalc. vm_compute in Heval. congruence.
  - vm_compute in Heval. discriminate Heval.
Defined.

Lemma calculate_tokens_unparsed ParseFloat postfix stack token :
  token ∈ postfix → isOperator token = false → ParseFloat token = None →
  ∃ ret, calculate_tokens ParseFloat stack postfix = inr ret.
Proof.
  intros Hin Hop Hparse. revert stack.
  induction postfix as [|head postfix IH]; intros stack;
    [apply elem_of_nil in Hin; contradiction|].
  cbn [calculate_tokens].
  destruct (calculate_token ParseFloat stack head) as [stack'|ret] eqn:Hhead;
    [|eauto].
  apply elem_of_cons in Hin as [<- | Hin]; [|apply IH; exact Hin].
  rewrite calculate_token_operand, Hparse in Hhead by exact Hop. discriminate.
Qed.

(** X17: an expression with a token that is neither a parenthesis nor an
    operator and that [strconv.ParseFloat] rejects (a letter, a tab, a
    decimal point, a character outside ASCII) never gets a value: [Calc]
    returns 0 with [ErrExpressionSyntax], or with [ErrDivisionByZero] when
    a division by zero comes first in the evaluation. *)
Theorem Calc_rejects_unparsed_operand
    (ParseFloat : string → option float) (expression token : string) :
  token ∈ Calc_tokens expression →
  is_operand token = true → ParseFloat token = None →
  Calc ParseFloat expression = (0%float, Some ErrExpressionSyntax) ∨
  Calc ParseFloat expression = (0%float, Some ErrDivisionByZero).
Proof.
  intros Hin Hoperand Hparse.
  destruct (Calc_cases ParseFloat expression)
    as [[_ Heq] | [(_ & _ & Heq) |
        (_ & postfix & Hconv & Hcalc)]]; [auto | auto |].
  destruct (convertToPostfix_tokens _ _ Hconv) as [Hperm _].
  assert (Hpost : token ∈ postfix).
  { rewrite Hperm. apply list_elem_of_filter. split; [|exact Hin].
    apply is_operand_spec in Hoperand as (Hopen & Hclose & _). unfold not_paren.
    destruct (String.eqb_spec token "("), (String.eqb_spec token ")");
      simpl; congruence. }
  apply is_operand_spec in Hoperand as (_ & _ & Hop).
  destruct (calculate_tokens_unparsed ParseFloat postfix [] token Hpost Hop Hparse)
    as [[value err] Hrun].
  destruct (calculate_tokens_return _ _ _ _ _ Hrun) as [-> Herr].
  assert (Hret : calculate ParseFloat postfix = (0%float, err)).
  { unfold calculate. rewrite Hrun. reflexivity. }
  destruct Hcalc as [(e & He & Heq) | (result & Hres & _)]; [|destruct Herr; congruence].
  rewrite Heq. destruct Herr as [-> | ->]; rewrite Hret in He;
    inversion He; subst; auto.
Qed.

Lemma Calc_rejects_unparsed_operand_witness :
  ("x" ∈ Calc_tokens "2*x+1") ∧
  is_operand "x" = true ∧ strconv.ParseFloat "x" = None ∧
  Calc strconv.ParseFloat "2*x+1" = (0%float, Some ErrExpressionSyntax).
Proof.
  assert (Hin : "x" ∈ Calc_tokens "2*x+1")
    by (apply (bool_decide_unpack _); reflexivity).
  split; [exact Hin|]. split; [reflexivity|]. split; [reflexivity|].
  destruct (Calc_rejects_unparsed_operand strconv.ParseFloat "2*x+1" "x"
              Hin eq_refl eq_refl) as [Heq | Heq]; [exact Heq|].
  vm_compute in Heq. discriminate Heq.
Defined.

(** ** Worked examples and the order of the operators *)

(** The conversion of the infix tokens of a tree, for a tree given with the
    tokens it prints to. *)
Lemma convertToPostfix_of_tree e infix :
  well_formed e = true → infix_of 0 e = infix →
  convertToPostfix infix = (postfix_of e, None).
Proof.
  intros Hwf <-. unfold convertToPostfix.
  rewrite convert_run_infix_of by exact Hwf. reflexivity.
Qed.

(** C1: on the worked examples [Calc] returns the stated value and a [nil]
    error: "1+1" gives 2, "2*3-4" gives 2, "(2+3)*4" gives 20 and "8-4-2"
    gives 2.  That this is the work of the priorities, of the grouping to
    the left and of the parentheses shows on the expressions in which they
    decide ("2+3*4" is 14, "9-2*3" is 3, "8-(4-2)" is 6, "8/4/2" is 1) and,
    for all operands, on the postfix sequences: "*" or "/" is applied
    before a neighbouring "+" or "-" on either side of it,
    parentheses put their content first, and of two operators of one
    priority the left one is applied first.  In general [Calc] returns the
    value of the expression tree that its tokens write in infix
    notation. *)
Theorem Calc_worked_examples :
  (Calc strconv.ParseFloat "1+1" = (2%float, None) ∧
   Calc strconv.ParseFloat "2*3-4" = (2%float, None) ∧
   Calc strconv.ParseFloat "(2+3)*4" = (20%float, None) ∧
   Calc strconv.ParseFloat "8-4-2" = (2%float, None)) ∧
  (Calc strconv.ParseFloat "2+3*4" = (14%float, None) ∧
   Calc strconv.ParseFloat "9-2*3" = (3%float, None) ∧
   Calc strconv.ParseFloat "8-(4-2)" = (6%float, None) ∧
   Calc strconv.ParseFloat "8/4/2" = (1%float, None)) ∧
  (∀ a b c low high : string,
     is_operand a = true → is_operand b = true → is_operand c = true →
     low = "+" ∨ low = "-" → high = "*" ∨ high = "/" →
     convertToPostfix [a; high; b; low; c] = ([a; b; high; c; low], None) ∧
     convertToPostfix [a; low; b; high; c] = ([a; b; c; high; low], None) ∧
     convertToPostfix ["("; a; low; b; ")"; high; c]
       = ([a; b; low; c; high], None) ∧
     convertToPostfix [a; high; "("; b; low; c; ")"]
       = ([a; b; c; low; high], None)) ∧
  (∀ a b c op op' : string,
     is_operand a = true → is_operand b = true → is_operand c = true →
     isOperator op = true → isOperator op' = true →
     precedence op = precedence op' →
     convertToPostfix [a; op; b; op'; c] = ([a; b; op; c; op'], None) ∧
     convertToPostfix [a; op; "("; b; op'; c; ")"]
       = ([a; b; c; op'; op], None)) ∧
  (∀ (ParseFloat : string → option float) (expression : string) (e : expr),
     well_formed e = true → Calc_tokens expression = infix_of 0 e →
     3 ≤ String.length expression →
     Calc ParseFloat expression = returned (eval ParseFloat e)).
Proof.
  split; [repeat split; vm_compute; reflexivity|].
  split; [repeat split; vm_compute; reflexivity|].
  split; [|split].
  - intros a b c low high Ha Hb Hc Hlow Hhigh.
    assert (precedence low = 1%Z) by (destruct Hlow; subst; reflexivity).
    assert (precedence high = 2%Z) by (destruct Hhigh; subst; reflexivity).
    clear Hlow Hhigh. rename H into Hlow, H0 into Hhigh.
    assert (Hl : isOperator low = true) by (apply isOperator_precedence; lia).
    assert (Hh : isOperator high = true) by (apply isOperator_precedence; lia).
    repeat split.
    + apply (convertToPostfix_of_tree
               (Binary low (Binary high (Operand a) (Operand b)) (Operand c))).
      * cbn [well_formed]. rewrite Ha, Hb, Hc, Hl, Hh. reflexivity.
      * cbn [infix_of]. rewrite Hlow, Hhigh. reflexivity.
    + apply (convertToPostfix_of_tree
               (Binary low (Operand a) (Binary high (Operand b) (Operand c)))).
      * cbn [well_formed]. rewrite Ha, Hb, Hc, Hl, Hh. reflexivity.
      * cbn [infix_of]. rewrite Hlow, Hhigh. reflexivity.
    + apply (convertToPostfix_of_tree
               (Binary high (Binary low (Operand a) (Operand b)) (Operand c))).
      * cbn [well_formed]. rewrite Ha, Hb, Hc, Hl, Hh. reflexivity.
      * cbn [infix_of]. rewrite Hlow, Hhigh. reflexivity.
    + apply (convertToPostfix_of_tree
               (Binary high (Operand a) (Binary low (Operand b) (Operand c)))).
      * cbn [well_formed]. rewrite Ha, Hb, Hc, Hl, Hh. reflexivity.
      * cbn [infix_of]. rewrite Hlow, Hhigh. reflexivity.
  - intros a b c op op' Ha Hb Hc Hop Hop' Hsame. split.
    + apply (convertToPostfix_of_tree
               (Binary op' (Binary op (Operand a) (Operand b)) (Operand c))).
      * cbn [well_formed]. rewrite Ha, Hb, Hc, Hop, Hop'. reflexivity.
      * cbn [infix_of]. rewrite Hsame, Z.ltb_irrefl.
        pose proof (precedence_range op').
        destruct (Z.ltb_spec (precedence op') 0); [lia | reflexivity].
    + apply (convertToPostfix_of_tree
               (Binary op (Operand a) (Binary op' (Operand b) (Operand c)))).
      * cbn [well_formed]. rewrite Ha, Hb, Hc, Hop, Hop'. reflexivity.
      * cbn [infix_of]. rewrite Hsame.
        pose proof (precedence_range op').
        destruct (Z.ltb_spec (precedence op') 0); [lia|].
        destruct (Z.ltb_spec (precedence op') (precedence op' + 1));
          [reflexivity | lia].
  - intros ParseFloat expression e Hwf Htokens Hlong.
    rewrite Calc_long_expression by exact Hlong.
    rewrite Htokens. unfold convertToPostfix.
    rewrite convert_run_infix_of by exact Hwf.
    unfold calculate.
    rewrite <- (app_nil_r (postfix_of e)), calculate_tokens_postfix_of by exact Hwf.
    destruct (eval ParseFloat e); reflexivity.
Qed.

Lemma Calc_worked_examples_witness :
  (is_operand "2" = true ∧ is_operand "3" = true ∧ is_operand "4" = true ∧
   ("-" = "+" ∨ "-" = "-") ∧ ("*" = "*" ∨ "*" = "/") ∧
   convertToPostfix ["2"; "*"; "3"; "-"; "4"] = (["2"; "3"; "*"; "4"; "-"], None) ∧
   convertToPostfix ["2"; "-"; "3"; "*"; "4"] = (["2"; "3"; "4"; "*"; "-"], None)) ∧
  (isOperator "-" = true ∧ precedence "-" = precedence "-" ∧
   convertToPostfix ["8"; "-"; "4"; "-"; "2"] = (["8"; "4"; "-"; "2"; "-"], None)) ∧
  (well_formed (Binary "*" (Paren (Binary "+" (Operand "2") (Operand "3"))) (Operand "4"))
     = true ∧
   Calc_tokens "(2+3)*4"
     = infix_of 0 (Binary "*" (Paren (Binary "+" (Operand "2") (Operand "3"))) (Operand "4")) ∧
   3 ≤ String.length "(2+3)*4" ∧
   Calc strconv.ParseFloat "(2+3)*4" = (20%float, None)).
Proof.
  destruct Calc_worked_examples as (_ & _ & Hpriority & Hleft & Htree).
  split.
  { destruct (Hpriority "2" "3" "4" "-" "*" eq_refl eq_refl eq_refl
                (or_intror eq_refl) (or_introl eq_refl))
      as (Hfirst & Hsecond & _).
    do 3 (split; [reflexivity|]).
    split; [right; reflexivity|]. split; [left; reflexivity|].
    split; [exact Hfirst | exact Hsecond]. }
  split.
  { destruct (Hleft "8" "4" "2" "-" "-" eq_refl eq_refl eq_refl eq_refl eq_refl eq_refl)
      as [Hfirst _].
    do 2 (split; [reflexivity|]). exact Hfirst. }
  split; [reflexivity|]. split; [reflexivity|]. split; [simpl; lia|].
  apply (Htree strconv.ParseFloat "(2+3)*4"
           (Binary "*" (Paren (Binary "+" (Operand "2") (Operand "3"))) (Operand "4")));
    [reflexivity | reflexivity | simpl; lia].
Defined.

(** ** The package-level variables are read, never written *)

Lemma keeps_mret {A} (a : A) : keeps_globals (mret a).
Proof. intros g. reflexivity. Qed.

Lemma keeps_read {A} (variable : globals → A) : keeps_globals (read variable).
Proof. intros g. reflexivity. Qed.

Lemma keeps_panic {A} : keeps_globals (@panic A).
Proof. intros g. exact I. Qed.

Lemma keeps_unfinished {A} : keeps_globals (@unfinished A).
Proof. intros g. exact I. Qed.

Lemma keeps_bind {A B} (m : run A) (k : A → run B) :
  keeps_globals m → (∀ a, keeps_globals (k a)) → keeps_globals (m ≫= k).
Proof.
  intros Hm Hk g. unfold mbind, run_bind. specialize (Hm g).
  destruct (m g) as [[a g']| |]; [|exact I..]. subst g'. apply Hk.
Qed.

Lemma keeps_index {A} (s : list A) i : keeps_globals (index s i).
Proof.
  unfold index. destruct (_ || _); [apply keeps_panic|].
  destruct (s !! Z.to_nat i); [apply keeps_mret | apply keeps_panic].
Qed.

Lemma keeps_slice_to {A} (s : list A) high : keeps_globals (slice_to s high).
Proof.
  unfold slice_to. destruct (_ || _); [apply keeps_panic | apply keeps_mret].
Qed.

Create HintDb keeps.
#[local] Hint Resolve keeps_mret keeps_read keeps_panic keeps_unfinished
  keeps_index keeps_slice_to : keeps.

Ltac keeps :=
  repeat first
    [ solve [auto with keeps]
    | apply keeps_bind; [|intros ?]
    | match goal with
      | |- keeps_globals (if ?test then _ else _) => destruct test
      | |- keeps_globals (match ?scrutinee with _ => _ end) => destruct scrutinee
      end ].

Lemma keeps_isOperator s : keeps_globals (Run.isOperator s).
Proof. unfold Run.isOperator. keeps. Qed.

Lemma keeps_precedence op : keeps_globals (Run.precedence op).
Proof. unfold Run.precedence. keeps. Qed.

#[local] Hint Resolve keeps_isOperator keeps_precedence : keeps.

Lemma keeps_pop_to_paren fuel stack output :
  keeps_globals (Run.pop_to_paren fuel stack output).
Proof.
  revert stack output. induction fuel as [|fuel IH]; intros stack output;
    cbn [Run.pop_to_paren]; keeps.
Qed.

Lemma keeps_pop_operators fuel token stack output :
  keeps_globals (Run.pop_operators fuel token stack output).
Proof.
  revert stack output. induction fuel as [|fuel IH]; intros stack output;
    cbn [Run.pop_operators]; keeps.
Qed.

#[local] Hint Resolve keeps_pop_to_paren keeps_pop_operators : keeps.

Lemma keeps_convert_token fuel stack output token :
  keeps_globals (Run.convert_token fuel stack output token).
Proof. unfold Run.convert_token. keeps. Qed.

#[local] Hint Resolve keeps_convert_token : keeps.

Lemma keeps_convert_tokens fuel stack output infix :
  keeps_globals (Run.convert_tokens fuel stack output infix).
Proof.
  revert stack output. induction infix as [|token infix IH]; intros stack output;
    cbn [Run.convert_tokens]; keeps.
Qed.

Lemma keeps_convert_flush fuel stack output :
  keeps_globals (Run.convert_flush fuel stack output).
Proof.
  revert stack output. induction fuel as [|fuel IH]; intros stack output;
    cbn [Run.convert_flush]; keeps.
Qed.

#[local] Hint Resolve keeps_convert_tokens keeps_convert_flush : keeps.

Lemma keeps_convertToPostfix fuel infix :
  keeps_globals (Run.convertToPostfix fuel infix).
Proof. unfold Run.convertToPostfix. keeps. Qed.

Lemma keeps_calculate_token ParseFloat stack token :
  keeps_globals (Run.calculate_token ParseFloat stack token).
Proof. unfold Run.calculate_token. keeps. Qed.

#[local] Hint Resolve keeps_convertToPostfix keeps_calculate_token : keeps.

Lemma keeps_calculate_tokens ParseFloat stack postfix :
  keeps_globals (Run.calculate_tokens ParseFloat stack postfix).
Proof.
  revert stack. induction postfix as [|token postfix IH]; intros stack;
    cbn [Run.calculate_tokens]; keeps.
Qed.

#[local] Hint Resolve keeps_calculate_tokens : keeps.

Lemma keeps_calculate ParseFloat postfix :
  keeps_globals (Run.calculate ParseFloat postfix).
Proof. unfold Run.calculate. keeps. Qed.

#[local] Hint Resolve keeps_calculate : keeps.

Lemma keeps_Calc ParseFloat fuel expression :
  keeps_globals (Run.Calc ParseFloat fuel expression).
Proof. unfold Run.Calc. keeps. Qed.

(** ** The slice accesses stay in range and the loops end *)

Lemma bind_gives {A B} (m : run A) (k : A → run B) a :
  gives m a → (m ≫= k) initial_globals = k a initial_globals.
Proof. unfold gives, mbind, run_bind. intros ->. reflexivity. Qed.

Lemma gives_bind {A B} (m : run A) (k : A → run B) a b :
  gives m a → gives (k a) b → gives (m ≫= k) b.
Proof. intros Hm Hk. unfold gives. rewrite (bind_gives m k a Hm). exact Hk. Qed.

Lemma gives_mret {A} (a : A) : gives (mret a) a.
Proof. reflexivity. Qed.

Lemma gives_isOperator s : gives (Run.isOperator s) (isOperator s).
Proof. reflexivity. Qed.

Lemma gives_precedence op : gives (Run.precedence op) (precedence op).
Proof. reflexivity. Qed.

Lemma len_snoc {A} (s : list A) x : len (s ++ [x]) = (len s + 1)%Z.
Proof. unfold len. rewrite length_app. cbn [length]. lia. Qed.

Lemma len_nonneg {A} (s : list A) : (0 ≤ len s)%Z.
Proof. unfold len. lia. Qed.

(** The last element of a non-empty slice is in range. *)
Lemma index_last {A} (s : list A) x :
  index (s ++ [x]) (len (s ++ [x]) - 1) = mret x.
Proof.
  unfold index. rewrite len_snoc. pose proof (len_nonneg s).
  destruct (Z.ltb_spec (len s + 1 - 1) 0); [lia|].
  destruct (Z.leb_spec (len s + 1) (len s + 1 - 1)); [lia|]. cbn [orb].
  replace (Z.to_nat (len s + 1 - 1)) with (length s) by (unfold len; lia).
  rewrite list_lookup_middle by reflexivity. reflexivity.
Qed.

(** So is the slice without it. *)
Lemma slice_to_last {A} (s : list A) x :
  slice_to (s ++ [x]) (len (s ++ [x]) - 1) = mret s.
Proof.
  unfold slice_to. rewrite len_snoc. pose proof (len_nonneg s).
  destruct (Z.ltb_spec (len s + 1 - 1) 0); [lia|].
  destruct (Z.ltb_spec (len s + 1) (len s + 1 - 1)); [lia|]. cbn [orb].
  replace (Z.to_nat (len s + 1 - 1)) with (length s) by (unfold len; lia).
  rewrite take_app_length. reflexivity.
Qed.

Lemma positive_len_snoc {A} (s : list A) x : (0 <? len (s ++ [x]))%Z = true.
Proof. rewrite len_snoc. pose proof (len_nonneg s). apply Z.ltb_lt. lia. Qed.

(** The loop of the [")"] branch ends within one evaluation of its
    condition more than the stack has entries, without a panic, with the
    stack and the output of [pop_to_paren]. *)
Lemma run_pop_to_paren stack output fuel :
  length stack < fuel →
  Run.pop_to_paren fuel (reverse stack) output
  = mret (reverse (pop_to_paren stack output).1, (pop_to_paren stack output).2).
Proof.
  revert output fuel.
  induction stack as [|top stack IH]; intros output [|fuel] Hfuel;
    cbn [length] in Hfuel; try lia.
  - reflexivity.
  - cbn [Run.pop_to_paren pop_to_paren]. rewrite reverse_cons.
    rewrite positive_len_snoc, index_last.
    change (mret top ≫= ?k) with (k top). cbn beta.
    destruct (String.eqb top "("); cbn [negb].
    + cbn [fst snd]. rewrite reverse_cons. reflexivity.
    + change (mret true ≫= ?k) with (k true). cbn beta iota.
      rewrite slice_to_last.
      change (mret top ≫= ?k) with (k top). cbn beta.
      change (mret (reverse stack) ≫= ?k) with (k (reverse stack)). cbn beta.
      apply IH. lia.
Qed.

Ltac run_ret :=
  repeat match goal with
         | |- context [mret ?a ≫= ?k] => change (mret a ≫= k) with (k a); cbn beta
         end.

(** The loop of the operator branch likewise. *)
Lemma run_pop_operators token stack output fuel :
  length stack < fuel →
  gives (Run.pop_operators fuel token (reverse stack) output)
    (reverse (pop_operators token stack output).1,
     (pop_operators token stack output).2).
Proof.
  revert output fuel.
  induction stack as [|top stack IH]; intros output [|fuel] Hfuel;
    cbn [length] in Hfuel; try lia.
  - reflexivity.
  - cbn [Run.pop_operators pop_operators]. rewrite !reverse_cons.
    rewrite positive_len_snoc, !index_last, slice_to_last. run_ret.
    destruct (String.eqb top "("); cbn [negb andb]; run_ret.
    + cbn iota. cbn [fst snd]. rewrite reverse_cons. apply gives_mret.
    + eapply gives_bind.
      { eapply gives_bind; [apply gives_precedence|]. cbn beta. run_ret.
        eapply gives_bind; [apply gives_precedence | apply gives_mret]. }
      destruct (precedence token <=? precedence top)%Z; cbn beta iota; run_ret.
      * apply IH. lia.
      * cbn [fst snd]. rewrite reverse_cons. apply gives_mret.
Qed.

Lemma gives_read {A} (variable : globals → A) :
  gives (read variable) (variable initial_globals).
Proof. reflexivity. Qed.

Lemma pop_to_paren_length stack output :
  length (pop_to_paren stack output).1 ≤ length stack.
Proof.
  revert output. induction stack as [|top stack IH]; intros output;
    cbn [pop_to_paren]; [reflexivity|].
  destruct (negb (String.eqb top "(")); cbn [fst length]; [|lia].
  specialize (IH (output ++ [top])). lia.
Qed.

Lemma pop_operators_length token stack output :
  length (pop_operators token stack output).1 ≤ length stack.
Proof.
  revert output. induction stack as [|top stack IH]; intros output;
    cbn [pop_operators]; [reflexivity|].
  destruct (negb (String.eqb top "(") && (precedence token <=? precedence top)%Z);
    cbn [fst length]; [|lia].
  specialize (IH (output ++ [top])). lia.
Qed.

(** A token adds at most one entry to the operator stack. *)
Lemma convert_token_length stack output token stack' output' :
  convert_token stack output token = inl (stack', output') →
  length stack' ≤ S (length stack).
Proof.
  unfold convert_token.
  destruct (String.eqb token "("); [intros [= <- <-]; reflexivity|].
  destruct (String.eqb token ")").
  { pose proof (pop_to_paren_length stack output) as Hpop.
    destruct (pop_to_paren stack output) as [[|top rest] out]; [discriminate|].
    destruct (negb (String.eqb top "(")); [discriminate|].
    intros [= <- <-]. cbn [fst length] in Hpop. lia. }
  destruct (isOperator token).
  - pose proof (pop_operators_length token stack output) as Hpop.
    destruct (pop_operators token stack output) as [rest out].
    intros [= <- <-]. cbn [fst length] in *. lia.
  - intros [= <- <-]. lia.
Qed.

Lemma convert_tokens_length infix stack output stack' output' :
  convert_tokens stack output infix = inl (stack', output') →
  length stack' ≤ length stack + length infix.
Proof.
  revert stack output. induction infix as [|token infix IH];
    intros stack output; cbn [convert_tokens length].
  - intros [= <- <-]. lia.
  - destruct (convert_token stack output token) as [[stack1 output1]|err] eqn:Htoken;
      [|discriminate].
    intros Hrun. apply IH in Hrun. apply convert_token_length in Htoken. lia.
Qed.

(** The body of the loop over [infix], with enough fuel for a stack of
    this height. *)
Lemma run_convert_token fuel stack output token :
  length stack < fuel →
  gives (Run.convert_token fuel (reverse stack) output token)
    match convert_token stack output token with
    | inl (stack', output') => inl (reverse stack', output')
    | inr err => inr err
    end.
Proof.
  intros Hfuel. unfold Run.convert_token, convert_token.
  destruct (String.eqb token "(").
  { rewrite reverse_cons. apply gives_mret. }
  destruct (String.eqb token ")").
  { rewrite run_pop_to_paren by exact Hfuel. run_ret. cbn [fst snd].
    destruct (pop_to_paren stack output) as [[|top rest] out]; cbn [fst snd].
    - cbn. eapply gives_bind; [apply gives_read | apply gives_mret].
    - rewrite reverse_cons.
      destruct (Z.eqb_spec (len (reverse rest ++ [top])) 0) as [Hzero|_].
      { rewrite len_snoc in Hzero. pose proof (len_nonneg (reverse rest)). lia. }
      rewrite index_last, slice_to_last. run_ret.
      destruct (negb (String.eqb top "(")); cbn iota; run_ret.
      + eapply gives_bind; [apply gives_read | apply gives_mret].
      + apply gives_mret. }
  eapply gives_bind; [apply gives_isOperator|].
  destruct (isOperator token); cbn iota.
  - eapply gives_bind; [apply run_pop_operators; exact Hfuel|].
    cbn [fst snd].
    destruct (pop_operators token stack output) as [rest out]. cbn [fst snd].
    rewrite reverse_cons. apply gives_mret.
  - apply gives_mret.
Qed.

Lemma run_convert_tokens fuel infix stack output :
  length stack + length infix < fuel →
  gives (Run.convert_tokens fuel (reverse stack) output infix)
    match convert_tokens stack output infix with
    | inl (stack', output') => inl (reverse stack', output')
    | inr err => inr err
    end.
Proof.
  revert stack output. induction infix as [|token infix IH];
    intros stack output Hfuel; cbn [Run.convert_tokens convert_tokens length] in *.
  - apply gives_mret.
  - eapply gives_bind; [apply run_convert_token; lia|].
    destruct (convert_token stack output token) as [[stack1 output1]|err] eqn:Htoken;
      cbn iota.
    + apply IH. apply convert_token_length in Htoken. lia.
    + apply gives_mret.
Qed.

(** The final loop, with enough fuel for a stack of this height. *)
Lemma run_convert_flush fuel stack output :
  length stack < fuel →
  gives (Run.convert_flush fuel (reverse stack) output)
    match convert_flush stack output with
    | inl (_, output') => (output', None)
    | inr err => ([], Some err)
    end.
Proof.
  revert output fuel.
  induction stack as [|top stack IH]; intros output [|fuel] Hfuel;
    cbn [length] in Hfuel; try lia.
  - apply gives_mret.
  - cbn [Run.convert_flush convert_flush]. rewrite !reverse_cons.
    rewrite positive_len_snoc, !index_last, slice_to_last. run_ret.
    destruct (String.eqb top "("); run_ret.
    + eapply gives_bind; [apply gives_read | apply gives_mret].
    + apply IH. lia.
Qed.

Lemma run_convertToPostfix fuel infix :
  length infix < fuel →
  gives (Run.convertToPostfix fuel infix) (convertToPostfix infix).
Proof.
  intros Hfuel. unfold Run.convertToPostfix, convertToPostfix, convert_run.
  eapply gives_bind.
  { apply (run_convert_tokens fuel infix [] []). cbn [length]. lia. }
  destruct (convert_tokens [] [] infix) as [[stack output]|err] eqn:Hrun;
    cbn iota.
  - apply convert_tokens_length in Hrun. cbn [length] in Hrun.
    pose proof (run_convert_flush fuel stack output ltac:(lia)) as Hflush.
    destruct (convert_flush stack output) as [[stack' output']|err];
      exact Hflush.
  - apply gives_mret.
Qed.

(** The two operands of an operator are in range on a stack of two values
    or more, and so is the slice without them. *)
Lemma index_second_last {A} (s : list A) a b :
  index ((s ++ [a]) ++ [b]) (len ((s ++ [a]) ++ [b]) - 2) = mret a.
Proof.
  unfold index. rewrite !len_snoc. pose proof (len_nonneg s).
  destruct (Z.ltb_spec (len s + 1 + 1 - 2) 0); [lia|].
  destruct (Z.leb_spec (len s + 1 + 1) (len s + 1 + 1 - 2)); [lia|]. cbn [orb].
  replace (Z.to_nat (len s + 1 + 1 - 2)) with (length s) by (unfold len; lia).
  replace ((s ++ [a]) ++ [b]) with (s ++ a :: [b])
    by (rewrite <- app_assoc; reflexivity).
  rewrite list_lookup_middle by reflexivity. reflexivity.
Qed.

Lemma slice_to_second_last {A} (s : list A) a b :
  slice_to ((s ++ [a]) ++ [b]) (len ((s ++ [a]) ++ [b]) - 2) = mret s.
Proof.
  unfold slice_to. rewrite !len_snoc. pose proof (len_nonneg s).
  destruct (Z.ltb_spec (len s + 1 + 1 - 2) 0); [lia|].
  destruct (Z.ltb_spec (len s + 1 + 1) (len s + 1 + 1 - 2)); [lia|]. cbn [orb].
  replace (Z.to_nat (len s + 1 + 1 - 2)) with (length s) by (unfold len; lia).
  rewrite <- app_assoc, take_app_length. reflexivity.
Qed.

Section RunEvaluator.

Variable ParseFloat : string → option float.

Lemma run_calculate_token stack token :
  gives (Run.calculate_token ParseFloat (reverse stack) token)
    match calculate_token ParseFloat stack token with
    | inl stack' => inl (reverse stack')
    | inr ret => inr ret
    end.
Proof.
  unfold Run.calculate_token, calculate_token.
  eapply gives_bind; [apply gives_isOperator|].
  destruct (isOperator token); cbn iota.
  - destruct stack as [|b [|a rest]].
    + cbn. eapply gives_bind; [apply gives_read | apply gives_mret].
    + cbn. eapply gives_bind; [apply gives_read | apply gives_mret].
    + rewrite !reverse_cons.
      destruct (Z.ltb_spec (len ((reverse rest ++ [a]) ++ [b])) 2) as [Hshort|_].
      { rewrite !len_snoc in Hshort. pose proof (len_nonneg (reverse rest)). lia. }
      rewrite index_last, index_second_last, slice_to_second_last. run_ret.
      repeat match goal with
             | |- context [if ?test then _ else _] => destruct test
             end;
        try rewrite reverse_cons;
        first [ apply gives_mret
              | eapply gives_bind; [apply gives_read | apply gives_mret] ].
  - destruct (ParseFloat token) as [value|].
    + rewrite reverse_cons. apply gives_mret.
    + eapply gives_bind; [apply gives_read | apply gives_mret].
Qed.

Lemma run_calculate_tokens postfix stack :
  gives (Run.calculate_tokens ParseFloat (reverse stack) postfix)
    match calculate_tokens ParseFloat stack postfix with
    | inl stack' => inl (reverse stack')
    | inr ret => inr ret
    end.
Proof.
  revert stack. induction postfix as [|token postfix IH]; intros stack;
    cbn [Run.calculate_tokens calculate_tokens].
  - apply gives_mret.
  - eapply gives_bind; [apply run_calculate_token|].
    destruct (calculate_token ParseFloat stack token) as [stack'|ret]; cbn iota.
    + apply IH.
    + apply gives_mret.
Qed.

Lemma run_calculate postfix :
  gives (Run.calculate ParseFloat postfix) (calculate ParseFloat postfix).
Proof.
  unfold Run.calculate, calculate.
  eapply gives_bind; [apply (run_calculate_tokens postfix [])|].
  destruct (calculate_tokens ParseFloat [] postfix) as [stack|ret]; cbn iota.
  - destruct stack as [|value [|second rest]].
    + cbn. eapply gives_bind; [apply gives_read | apply gives_mret].
    + cbn. apply gives_mret.
    + rewrite !reverse_cons.
      destruct (Z.eqb_spec (len ((reverse rest ++ [second]) ++ [value])) 1)
        as [Hone|_].
      { rewrite !len_snoc in Hone. pose proof (len_nonneg (reverse rest)). lia. }
      cbn [negb]. eapply gives_bind; [apply gives_read | apply gives_mret].
  - apply gives_mret.
Qed.

(** With more fuel than the expression has tokens, [Calc] as it runs
    returns what [Calc] above returns. *)
Lemma run_Calc fuel expression :
  length (Calc_tokens expression) < fuel →
  gives (Run.Calc ParseFloat fuel expression) (Calc ParseFloat expression).
Proof.
  intros Hfuel. unfold Run.Calc, Calc.
  destruct (String.length expression <? 3).
  { eapply gives_bind; [apply gives_read | apply gives_mret]. }
  cbn zeta.
  eapply gives_bind; [apply run_convertToPostfix; exact Hfuel|].
  destruct (convertToPostfix (Calc_tokens expression)) as [postfix [err|]].
  { apply gives_mret. }
  eapply gives_bind; [apply run_calculate|].
  destruct (calculate ParseFloat postfix) as [result [err|]]; apply gives_mret.
Qed.

End RunEvaluator.

(** An expression has no more tokens than bytes. *)
Lemma string_filter_length keep s :
  String.length (string_filter keep s) ≤ String.length s.
Proof.
  induction s as [|c s IH]; cbn [string_filter String.length]; [lia|].
  destruct (keep c); cbn [String.length]; lia.
Qed.

Lemma string_concat_length tokens :
  Forall single_rune tokens →
  length tokens ≤ String.length (string_concat tokens).
Proof.
  induction 1 as [|token tokens [Hne _] _ IH]; cbn [string_concat length]; [lia|].
  rewrite string_length_append.
  destruct token as [|c token]; [congruence|]. cbn [String.length]. lia.
Qed.

Lemma Calc_tokens_length expression :
  length (Calc_tokens expression) ≤ String.length expression.
Proof.
  rewrite Calc_tokens_explode.
  pose proof (string_concat_length _ (explode_single_rune (strip_spaces expression)))
    as Hcount.
  rewrite explode_concat in Hcount.
  pose proof (string_filter_length (λ c, negb (is_space c)) expression).
  unfold strip_spaces in *. lia.
Qed.

(** ** Termination, slice bounds and the results of [Calc] *)

(** C8, as the code has it: started at program start with more fuel than
    the expression has bytes, [Calc] returns: none of its loops is still
    running when the fuel ends, so each ends within a number of rounds
    bounded by the length of the input, and no slice is accessed out of
    range.  It returns a [float64] with a [nil] error, or 0 with one of
    [ErrExpressionSyntax], [ErrDivisionByZero] and [ErrInvalidExpression],
    and leaves the package-level variables as they were.  This holds for
    every expression, those made of digits, operators and matched
    parentheses among them.  The [float64] is whatever the IEEE operations
    give, an infinity or a NaN included. *)
Theorem Calc_runs_to_completion
    (ParseFloat : string → option float) (expression : string) (fuel : nat) :
  String.length expression < fuel →
  Run.Calc ParseFloat fuel expression initial_globals
    = Returns (Calc ParseFloat expression, initial_globals) ∧
  ∃ value err,
    Calc ParseFloat expression = (value, err) ∧
    evaluator_error err ∧ (err ≠ None → value = 0%float).
Proof.
  intros Hfuel. split.
  - apply run_Calc. pose proof (Calc_tokens_length expression). lia.
  - destruct (Calc_results ParseFloat expression []) as [Hcalc _]. exact Hcalc.
Qed.

Lemma Calc_runs_to_completion_witness :
  String.length "2*(3+4)-5" < 10 ∧
  Run.Calc strconv.ParseFloat 10 "2*(3+4)-5" initial_globals
    = Returns ((9%float, None), initial_globals).
Proof.
  split; [simpl; lia|].
  destruct (Calc_runs_to_completion strconv.ParseFloat "2*(3+4)-5" 10) as [Hrun _];
    [simpl; lia|].
  rewrite Hrun. reflexivity.
Defined.

(** C8 fails as worded: the expression of 324 factors 9 and a factor 0 is
    made of digits and operators only, and [Calc] returns for it, with a
    [nil] error, a [float64] that is not a number: the product of the
    nines is beyond the largest [float64], and infinity times 0 is NaN. *)
Lemma Calc_overflow_counterexample :
  String.length overflowing_product = 649 ∧
  string_forall (λ c, is_digit c || Ascii.eqb c "*") overflowing_product = true ∧
  Calc strconv.ParseFloat overflowing_product = (nan, None) ∧
  is_nan (Calc strconv.ParseFloat overflowing_product).1 = true ∧
  (Calc strconv.ParseFloat overflowing_product).2 = None.
Proof. repeat split; vm_compute; reflexivity. Qed.

(** ** Repeated calls *)

(** C9: [Calc] reads the package-level variables (the table [operations]
    and the error values) and never writes them: whatever they hold, a
    call that returns hands them on unchanged, so a second call on the
    same string meets the same variables and returns the same value and
    the same error.  From program start, two calls on one string, with any
    other call of [Calc] between them, return the same pair, the one that
    [Calc] above gives, and the variables still have their initial
    values. *)
Theorem Calc_repeatable :
  (∀ (ParseFloat : string → option float) fuel expression g result g',
     Run.Calc ParseFloat fuel expression g = Returns (result, g') → g' = g) ∧
  (∀ (ParseFloat : string → option float) fuel expression g once g1 again g2,
     Run.Calc ParseFloat fuel expression g = Returns (once, g1) →
     Run.Calc ParseFloat fuel expression g1 = Returns (again, g2) →
     once.1 = again.1 ∧ once.2 = again.2 ∧ g2 = g) ∧
  (∀ (ParseFloat : string → option float) fuel fuel' fuel'' expression other,
     String.length expression < fuel → String.length other < fuel' →
     String.length expression < fuel'' →
     (once ← Run.Calc ParseFloat fuel expression;
      _ ← Run.Calc ParseFloat fuel' other;
      again ← Run.Calc ParseFloat fuel'' expression;
      mret (once, again)) initial_globals
     = Returns ((Calc ParseFloat expression, Calc ParseFloat expression),
                initial_globals)).
Proof.
  split; [|split].
  - intros ParseFloat fuel expression g result g' Hrun.
    pose proof (keeps_Calc ParseFloat fuel expression g) as Hkeeps.
    rewrite Hrun in Hkeeps. exact Hkeeps.
  - intros ParseFloat fuel expression g once g1 again g2 Hfirst Hsecond.
    pose proof (keeps_Calc ParseFloat fuel expression g) as Hkeeps.
    rewrite Hfirst in Hkeeps. subst g1.
    rewrite Hfirst in Hsecond. inversion Hsecond; subst. auto.
  - intros ParseFloat fuel fuel' fuel'' expression other Hfuel Hfuel' Hfuel''.
    assert (Hrun : ∀ f e, String.length e < f →
              gives (Run.Calc ParseFloat f e) (Calc ParseFloat e)).
    { intros f e Hf. apply run_Calc. pose proof (Calc_tokens_length e). lia. }
    eapply gives_bind; [apply Hrun; exact Hfuel|].
    eapply gives_bind; [apply Hrun; exact Hfuel'|].
    eapply gives_bind; [apply Hrun; exact Hfuel''|].
    apply gives_mret.
Qed.

Lemma Calc_repeatable_witness :
  Run.Calc strconv.ParseFloat 10 "10/0" initial_globals
    = Returns ((0%float, Some ErrDivisionByZero), initial_globals) ∧
  (String.length "10/0" < 10 ∧ String.length "2*3-4" < 8 ∧
   (once ← Run.Calc strconv.ParseFloat 10 "10/0";
    _ ← Run.Calc strconv.ParseFloat 8 "2*3-4";
    again ← Run.Calc strconv.ParseFloat 10 "10/0";
    mret (once, again)) initial_globals
   = Returns (((0%float, Some ErrDivisionByZero), (0%float, Some ErrDivisionByZero)),
              initial_globals)).
Proof.
  destruct Calc_repeatable as (Hkeeps & Hsame & Hstart).
  split; [reflexivity|]. split; [simpl; lia|]. split; [simpl; lia|].
  rewrite (Hstart strconv.ParseFloat 10 8 10 "10/0" "2*3-4")
    by (simpl; lia).
  reflexivity.
Defined.

(** ** What the outcomes tell apart *)

(** An access below or above the bounds of a slice panics, and a loop that
    needs more rounds than it has fuel is unfinished: the top of an empty
    stack, the slice that drops two of one value, and "2*3-4" on fuel for
    one round only. *)
Example run_outcomes :
  index (@nil string) (len (@nil string) - 1) initial_globals = Panics ∧
  index ["+"] 1 initial_globals = Panics ∧
  slice_to [1%float] (len [1%float] - 2) initial_globals = Panics ∧
  Run.Calc strconv.ParseFloat 1 "2*3-4" initial_globals = Unfinished ∧
  Run.Calc strconv.ParseFloat 2 "2*3-4" initial_globals
    = Returns ((2%float, None), initial_globals).
Proof. repeat split; vm_compute; reflexivity. Qed.
